(** * gemini-ai-chat: the chat client's message logic

    A shallow embedding of [index.tsx] (the chat component, its submit
    handler with the streaming loop, and the localStorage helpers) and of
    [services/geminiService.ts] ([createChat]), followed by the properties
    the specification states about them.

    Conventions.
    - A JavaScript string is a [string]; one character stands for one code
      unit below 256.
    - Message objects live in a store ([heap]) and the React state
      [messages] is an array of references into it, because the streaming
      loop assigns to a property of an object that the previous array
      shares.
    - A state updater passed to [setMessages] is applied when it is passed:
      React runs the updaters in the order of the calls, and the fragments
      of a stream arrive in separate turns of the event loop.
    - A handler runs on the state of the latest render: React renders
      again after an event before the next one is handled. DOM effects
      ([e.preventDefault()], the value of the file input, scrolling) are
      left out.
    - The state and the refs of a chat component last while it is mounted.
      An activation of [handleSubmit] that is suspended at an [await] is
      not cancelled when its component is unmounted; what it does then is
      in [Page]. *)

From Stdlib Require Import Ascii String.
From stdpp Require Import base option list gmap strings.

Open Scope string_scope.
Open Scope list_scope.
Open Scope nat_scope.

(** * Data model *)

(** ['user' | 'model'] *)
Inductive Role := user | model.

(** A string property that can be missing, [null], or a string:
    [imageUrl] receives [imagePreview], a [string | null]. *)
Inductive Nullable := undefined | null | str (s : string).

(** Modelled from the spec: the interface [ChatMessage] of [types.ts], which
    is not among the sources; the spec gives
    [{ role: "user" | "model", text: string (optional), imageUrl: string
    (optional) }]. A missing property and one holding [undefined] read the
    same everywhere in the program, so [text] is an [option]. *)
Record ChatMessage := {
  role : Role;
  text : option string;
  imageUrl : Nullable;
}.

(** JavaScript truthiness of the two kinds of property. *)
Definition truthy (v : option string) : bool :=
  match v with
  | Some s => negb (String.eqb s "")
  | None => false
  end.

Definition truthyN (v : Nullable) : bool :=
  match v with
  | str s => negb (String.eqb s "")
  | _ => false
  end.

(** The types of [@google/genai] the program builds values of. *)
Module Genai.

(** [{ mimeType, data }] *)
Record Blob := { mimeType : string; data : string }.

(** [Part]: every property optional; the program sets [text] or
    [inlineData]. *)
Record Part := { text : option string; inlineData : option Blob }.

(** [Content] *)
Record Content := { role : Role; parts : list Part }.

(** What [ai.chats.create] is called with. *)
Record Chat := {
  model : string;
  history : option (list Content);
  systemInstruction : string;
}.

End Genai.

(** * services/geminiService.ts *)

Definition modelName : string := "gemini-2.5-flash".

Definition createChat (history : option (list Genai.Content)) : Genai.Chat :=
  {| Genai.model := modelName;
     Genai.history := history;
     Genai.systemInstruction :=
       "You are a helpful and friendly AI assistant. Your goal is to provide accurate and concise answers to user queries, helping them solve their problems." |}.

(** * The history reconstructor (the first effect of [ChatComponent]) *)

(** [messages.filter(msg => msg.text).map(msg => ({ role: msg.role,
    parts: [{ text: msg.text! }] }))]. The [!] is erased by the compiler:
    the part receives whatever [msg.text] holds. *)
Definition history (messages : list ChatMessage) : list Genai.Content :=
  map (fun msg => {| Genai.role := role msg;
                     Genai.parts := [ {| Genai.text := text msg;
                                         Genai.inlineData := None |} ] |})
      (List.filter (fun msg => truthy (text msg)) messages).

(** The number of messages with a non-empty text, counted directly. *)
Fixpoint text_count (messages : list ChatMessage) : nat :=
  match messages with
  | [] => 0
  | msg :: rest =>
      match text msg with
      | Some (String _ _) => S (text_count rest)
      | _ => text_count rest
      end
  end.

(** A context entry carries the role and the text of a message. *)
Definition context_of (msg : ChatMessage) (c : Genai.Content) : Prop :=
  Genai.role c = role msg ∧
  ∃ t, t ≠ "" ∧ text msg = Some t ∧
       Genai.parts c = [ {| Genai.text := Some t; Genai.inlineData := None |} ].

(** * The browser: [localStorage] and the console *)

(** What the program can see thrown. *)
Inductive Thrown :=
| SecurityError        (* reading [localStorage] when storage access is denied *)
| QuotaExceededError   (* [setItem] when the store rejects the write *)
| SyntaxError          (* [JSON.parse] of a text that is not JSON *)
| TypeError            (* a property of [null] or [undefined] *)
| Rejected             (* a rejected file read, request or stream *)
| Error (message : string).

(** A text in [localStorage]: the JSON text of a message list, which
    [JSON.stringify] writes and [JSON.parse] reads back to the same
    contents (a property holding [undefined] is left out and is missing
    after the parse, [null] stays [null]), or a text that [JSON.parse]
    rejects. [loadChatHistory] declares its result a [ChatMessage[]]; JSON
    texts of other shapes are outside this model. *)
Inductive Text :=
| json (messages : list ChatMessage)
| malformed (raw : string).

(** A JSON text is never empty; the empty string is the only falsy text. *)
Definition truthyT (t : Text) : bool :=
  match t with
  | json _ => true
  | malformed raw => negb (String.eqb raw "")
  end.

(** [console.error(label, e)] and [console.error(e)]. *)
Record LogEntry := { label : option string; logged : Thrown }.

Record Browser := {
  localStorage : gmap string Text;
  denied : bool;    (* access to [localStorage] throws *)
  full : bool;      (* [setItem] throws: quota exceeded *)
  console : list LogEntry;
}.

(** ** Statements that read and write the browser and may throw *)

Inductive Completion (A : Type) :=
| normal (a : A)
| throw (e : Thrown).
Arguments normal {A} a.
Arguments throw {A} e.

Definition JS (A : Type) : Type := Browser → Completion A * Browser.

#[global] Instance JS_ret : MRet JS := λ A a b, (normal a, b).

#[global] Instance JS_bind : MBind JS := λ A B k m b,
  match m b with
  | (normal a, b') => k a b'
  | (throw e, b') => (throw e, b')
  end.

(** [try { body } catch (e) { handler }] *)
Definition try_catch {A} (body : JS A) (handler : Thrown → JS A) : JS A :=
  λ b, match body b with
       | (normal a, b') => (normal a, b')
       | (throw e, b') => handler e b'
       end.

Definition getItem (key : string) : JS (option Text) := λ b,
  if denied b then (throw SecurityError, b)
  else (normal (localStorage b !! key), b).

Definition setItem (key : string) (value : Text) : JS () := λ b,
  if denied b then (throw SecurityError, b)
  else if full b then (throw QuotaExceededError, b)
  else (normal (),
        {| localStorage := <[key := value]> (localStorage b);
           denied := denied b; full := full b; console := console b |}).

Definition JSON_stringify (value : list ChatMessage) : JS Text :=
  mret (json value).

Definition JSON_parse (t : Text) : JS (list ChatMessage) := λ b,
  match t with
  | json value => (normal value, b)
  | malformed _ => (throw SyntaxError, b)
  end.

Definition console_error (l : option string) (e : Thrown) : JS () := λ b,
  (normal (),
   {| localStorage := localStorage b; denied := denied b; full := full b;
      console := console b ++ [ {| label := l; logged := e |} ] |}).

(** * LocalStorage DB helpers (keyed by UID) *)

(** [msg.imageUrl?.startsWith('blob:')] as a condition. *)
Definition startsWith_blob (v : Nullable) : bool :=
  match v with
  | str s => String.prefix "blob:" s
  | _ => false
  end.

(** [msg.imageUrl?.startsWith('blob:') ? { ...msg, imageUrl: '' } : msg] *)
Definition storable (msg : ChatMessage) : ChatMessage :=
  if startsWith_blob (imageUrl msg)
  then {| role := role msg; text := text msg; imageUrl := str "" |}
  else msg.

Definition history_key (uid : string) : string :=
  "gemini-chat-history-" +:+ uid.

Definition saveChatHistory (uid : string) (messages : list ChatMessage)
  : JS () :=
  try_catch
    (let storableHistory := map storable messages in
     t ← JSON_stringify storableHistory;
     setItem (history_key uid) t)
    (λ e, console_error (Some "Failed to save chat history:") e).

Definition loadChatHistory (uid : string) : JS (list ChatMessage) :=
  try_catch
    (storedHistory ← getItem (history_key uid);
     match storedHistory with
     | Some t => if truthyT t then JSON_parse t else mret []
     | None => mret []
     end)
    (λ e, _ ← console_error (Some "Failed to load chat history:") e;
          mret []).

(** Saving and then loading, as two calls in a row. *)
Definition save_then_load (uid : string) (messages : list ChatMessage)
  : JS (list ChatMessage) :=
  _ ← saveChatHistory uid messages; loadChatHistory uid.

(** A transient image reference: an object URL, [blob:] and what the
    browser chose. *)
Definition transient (v : Nullable) : Prop :=
  ∃ id, v = str ("blob:" +:+ id).

(** [msg'] is [msg] with a transient image reference replaced by the empty
    string and everything else as it is. *)
Definition blanked (msg msg' : ChatMessage) : Prop :=
  role msg' = role msg ∧ text msg' = text msg ∧
  ((transient (imageUrl msg) ∧ imageUrl msg' = str "") ∨
   (¬ transient (imageUrl msg) ∧ imageUrl msg' = imageUrl msg)).

(** * Strings: [trim] *)

(** The white space and line terminators below 256 that [trim] strips:
    TAB, LF, VT, FF, CR, SP and NBSP. *)
Definition is_white_space (c : ascii) : bool :=
  bool_decide (nat_of_ascii c ∈ [9; 10; 11; 12; 13; 32; 160]).

Fixpoint trimStart (s : string) : string :=
  match s with
  | String c rest => if is_white_space c then trimStart rest else s
  | EmptyString => EmptyString
  end.

Fixpoint trimEnd (s : string) : string :=
  match s with
  | String c rest =>
      match trimEnd rest with
      | EmptyString => if is_white_space c then EmptyString
                       else String c EmptyString
      | kept => String c kept
      end
  | EmptyString => EmptyString
  end.

Definition trim (s : string) : string := trimEnd (trimStart s).

(** Truthiness of a string. *)
Definition nonempty (s : string) : bool := negb (String.eqb s "").

Fixpoint whitespace_only (s : string) : bool :=
  match s with
  | String c rest => is_white_space c && whitespace_only rest
  | EmptyString => true
  end.

(** * The chat component *)

(** A [File] of the file input. *)
Record File := { name : string; type : string }.

(** [URL.createObjectURL]: a fresh URL of the scheme [blob:]; [id] is the
    part the browser chooses. *)
Definition createObjectURL (id : string) : string := "blob:" +:+ id.

(** The variables of the streaming loop. *)
Record Locals := { modelResponse : string; firstChunk : bool }.

(** Where an activation of [handleSubmit] is suspended. *)
Inductive Phase :=
| reading                  (* [await fileToBase64(currentImage)] *)
| opening                  (* [await geminiChat.current.sendMessageStream(..)] *)
| streaming (v : Locals).  (* [for await (const chunk of stream)] *)

Record Invocation := {
  currentInput : string;
  currentImage : option File;
  phase : Phase;
}.

(** The state the component works on: its own state and refs, the
    [messages] of [App] it receives with [setMessages], the store of
    message objects, the activations of [handleSubmit] that are suspended
    at an [await], the requests sent to the service and what
    [console.error] received. *)
Record ChatState := {
  heap : list ChatMessage;
  messages : list nat;
  input : string;
  isLoading : bool;
  image : option File;
  imagePreview : option string;
  geminiChat : option Genai.Chat;
  pending : list Invocation;
  requests : list (Genai.Chat * list Genai.Part);
  errors : list Thrown;
}.

(** The messages an array of references denotes. *)
Definition contents (h : list ChatMessage) (ms : list nat)
  : list ChatMessage :=
  omap (λ l, h !! l) ms.

(** A new value of [messages] with the store it refers to. The effect
    with the dependency [[messages]] then re-creates the chat session from
    the reconstructed history. *)
Definition setMessages (h : list ChatMessage) (ms : list nat)
    (st : ChatState) : ChatState :=
  {| heap := h; messages := ms;
     input := input st; isLoading := isLoading st;
     image := image st; imagePreview := imagePreview st;
     geminiChat := Some (createChat (Some (history (contents h ms))));
     pending := pending st; requests := requests st;
     errors := errors st |}.

(** [setMessages(prev => [...prev, msg])] with [msg] a new object. *)
Definition append (msg : ChatMessage) (st : ChatState) : ChatState :=
  setMessages (heap st ++ [msg]) (messages st ++ [length (heap st)]) st.

(** [msg.text = t] *)
Definition assign_text (t : string) (msg : ChatMessage) : ChatMessage :=
  {| role := role msg; text := Some t; imageUrl := imageUrl msg |}.

(** [setMessages(prev => { const newMessages = [...prev];
    newMessages[newMessages.length - 1].text = modelResponse;
    return newMessages; })]: the object the last entry refers to is
    assigned to; on an empty array the assignment is to a property of
    [undefined], a [TypeError] inside the updater, which React raises
    while rendering, outside [handleSubmit]: [None]. *)
Definition replace_last_text (t : string) (st : ChatState)
  : option ChatState :=
  match last (messages st) with
  | Some l => Some (setMessages (alter (assign_text t) l (heap st))
                                (messages st) st)
  | None => None
  end.

Definition setInput (value : string) (st : ChatState) : ChatState :=
  {| heap := heap st; messages := messages st;
     input := value; isLoading := isLoading st;
     image := image st; imagePreview := imagePreview st;
     geminiChat := geminiChat st; pending := pending st;
     requests := requests st; errors := errors st |}.

Definition setIsLoading (value : bool) (st : ChatState) : ChatState :=
  {| heap := heap st; messages := messages st;
     input := input st; isLoading := value;
     image := image st; imagePreview := imagePreview st;
     geminiChat := geminiChat st; pending := pending st;
     requests := requests st; errors := errors st |}.

(** [setImage(file); setImagePreview(url)] *)
Definition setImage (file : option File) (url : option string)
    (st : ChatState) : ChatState :=
  {| heap := heap st; messages := messages st;
     input := input st; isLoading := isLoading st;
     image := file; imagePreview := url;
     geminiChat := geminiChat st; pending := pending st;
     requests := requests st; errors := errors st |}.

Definition setPending (invs : list Invocation) (st : ChatState)
  : ChatState :=
  {| heap := heap st; messages := messages st;
     input := input st; isLoading := isLoading st;
     image := image st; imagePreview := imagePreview st;
     geminiChat := geminiChat st; pending := invs;
     requests := requests st; errors := errors st |}.

(** [console.error(error)] *)
Definition log_error (e : Thrown) (st : ChatState) : ChatState :=
  {| heap := heap st; messages := messages st;
     input := input st; isLoading := isLoading st;
     image := image st; imagePreview := imagePreview st;
     geminiChat := geminiChat st; pending := pending st;
     requests := requests st; errors := errors st ++ [e] |}.

(** [geminiChat.current.sendMessageStream({ message: messageParts })] *)
Definition sendMessageStream (chat : Genai.Chat)
    (messageParts : list Genai.Part) (st : ChatState) : ChatState :=
  {| heap := heap st; messages := messages st;
     input := input st; isLoading := isLoading st;
     image := image st; imagePreview := imagePreview st;
     geminiChat := geminiChat st; pending := pending st;
     requests := requests st ++ [(chat, messageParts)];
     errors := errors st |}.

Definition initialWelcomeMessage : ChatMessage :=
  {| role := model;
     text := Some "Hello there! I'm your Gemini-powered assistant. You can ask me questions, upload an image, or even use your voice. How can I help you today?";
     imageUrl := undefined |}.

Definition fallback_message : ChatMessage :=
  {| role := model;
     text := Some "I'm sorry, I couldn't generate a response.";
     imageUrl := undefined |}.

Definition apology_message : ChatMessage :=
  {| role := model;
     text := Some "Sorry, something went wrong. Please try again.";
     imageUrl := undefined |}.

(** ** The streaming loop and its handlers *)

(** [{ role: 'model', text: modelResponse }] *)
Definition model_message (modelResponse : string) : ChatMessage :=
  {| role := model; text := Some modelResponse; imageUrl := undefined |}.

(** The body of the loop for one chunk. *)
Definition on_chunk (chunkText : option string) (v : Locals)
    (st : ChatState) : option (Locals * ChatState) :=
  if truthy chunkText then
    let modelResponse := modelResponse v +:+ default "" chunkText in
    let v' := {| modelResponse := modelResponse; firstChunk := false |} in
    if firstChunk v then
      Some (v', append (model_message modelResponse) st)
    else
      st' ← replace_last_text modelResponse st; Some (v', st')
  else Some (v, st).

(** [catch (error) { ... }] *)
Definition catch (e : Thrown) (st : ChatState) : ChatState :=
  append apology_message (log_error e st).

(** [finally { setIsLoading(false); }] *)
Definition finally (st : ChatState) : ChatState := setIsLoading false st.

(** The stream ended: the code after the loop, then [finally]. *)
Definition on_done (v : Locals) (st : ChatState) : ChatState :=
  finally (if firstChunk v then append fallback_message st else st).

(** The stream threw: [catch], then [finally]. *)
Definition on_throw (e : Thrown) (st : ChatState) : ChatState :=
  finally (catch e st).

(** [let modelResponse = ''; let firstChunk = true;] *)
Definition loop_start : Locals :=
  {| modelResponse := ""; firstChunk := true |}.

(** What the stream of one request does, in order: it yields a chunk whose
    [text] is a string or missing, or it throws; the end of the list is
    the end of the stream. Nothing after a throw is delivered. *)
Inductive StreamEvent :=
| fragment (chunkText : option string)
| failure.

Fixpoint for_await (stream : list StreamEvent) (v : Locals)
    (st : ChatState) : option ChatState :=
  match stream with
  | [] => Some (on_done v st)
  | failure :: _ => Some (on_throw Rejected st)
  | fragment chunkText :: rest =>
      '(v', st') ← on_chunk chunkText v st; for_await rest v' st'
  end.

(** The stream accumulator: [handleSubmit] from
    [let modelResponse = ''] to the end of [finally]. *)
Definition accumulate (stream : list StreamEvent) (st : ChatState)
  : option ChatState :=
  for_await stream loop_start st.

(** The loop after the chunks delivered so far, before the stream ends. *)
Fixpoint consume (chunks : list (option string)) (v : Locals)
    (st : ChatState) : option (Locals * ChatState) :=
  match chunks with
  | [] => Some (v, st)
  | chunkText :: rest =>
      '(v', st') ← on_chunk chunkText v st; consume rest v' st'
  end.

(** The concatenation of the fragments, a missing text counting as
    empty. *)
Fixpoint concat_fragments (chunks : list (option string)) : string :=
  match chunks with
  | [] => ""
  | chunkText :: rest => default "" chunkText +:+ concat_fragments rest
  end.

(** ** The handlers of the component *)

Definition handleFileChange (file : option File) (id : string)
    (st : ChatState) : ChatState :=
  match file with
  | Some f =>
      if String.prefix "image/" (type f)
      then setImage (Some f) (Some (createObjectURL id)) st
      else setImage None None st
  | None => setImage None None st
  end.

Definition handleRemoveImage (st : ChatState) : ChatState :=
  setImage None None st.

(** [onNewChat]: [setMessages([initialWelcomeMessage])], the object of the
    latest render of [App]. *)
Definition handleNewChat (st : ChatState) : ChatState :=
  setMessages (heap st ++ [initialWelcomeMessage]) [length (heap st)] st.

(** [setInput(prev => prev ? `${prev} ${transcript}` : transcript)] *)
Definition onresult (transcript : string) (st : ChatState) : ChatState :=
  setInput (if nonempty (input st)
            then input st +:+ " " +:+ transcript else transcript) st.

(** The parts of the message: the image, if any, then the text, if any. *)
Definition messageParts (inline : option Genai.Blob)
    (currentInput : string) : list Genai.Part :=
  match inline with
  | Some b => [ {| Genai.text := None; Genai.inlineData := Some b |} ]
  | None => []
  end ++
  if nonempty (trim currentInput)
  then [ {| Genai.text := Some currentInput; Genai.inlineData := None |} ]
  else [].

(** The guard of [handleSubmit]:
    [(!input.trim() && !image) || isLoading]. *)
Definition submit_refused (st : ChatState) : bool :=
  (negb (nonempty (trim (input st))) && negb (bool_decide (is_Some (image st))))
  || isLoading st.

(** [handleSubmit] up to its first [await]. The ref [geminiChat.current]
    still holds the session of the render the handler belongs to. *)
Definition handleSubmit (st : ChatState) : ChatState :=
  if submit_refused st then st
  else
    let currentInput := input st in
    let currentImage := image st in
    let currentImagePreview := imagePreview st in
    let userMessage :=
      {| role := user; text := Some currentInput;
         imageUrl := match currentImagePreview with
                     | Some url => str url
                     | None => null
                     end |} in
    let st1 :=
      setIsLoading true
        (setImage None None (setInput "" (append userMessage st))) in
    match geminiChat st with
    | None => on_throw (Error "Chat not initialized") st1
    | Some chat =>
        let inv p := {| currentInput := currentInput;
                        currentImage := currentImage; phase := p |} in
        match currentImage with
        | Some _ => setPending (pending st1 ++ [inv reading]) st1
        | None =>
            let st2 :=
              sendMessageStream chat (messageParts None currentInput) st1 in
            setPending (pending st2 ++ [inv opening]) st2
        end
    end.

(** [fileToBase64] resolved with [base64Data]: the image part is pushed,
    then the text part, and the request is sent on the session the ref
    holds by now. *)
Definition on_file_read (base64Data : string) (inv : Invocation)
    (st : ChatState) : option Invocation * ChatState :=
  match currentImage inv, geminiChat st with
  | Some f, Some chat =>
      let parts :=
        messageParts
          (Some {| Genai.mimeType := type f; Genai.data := base64Data |})
          (currentInput inv) in
      (Some {| currentInput := currentInput inv;
               currentImage := currentImage inv; phase := opening |},
       sendMessageStream chat parts st)
  | _, _ => (None, on_throw TypeError st)
  end.

(** What happens to the component, one event at a time. The last six
    resume the suspended activation number [i]. *)
Inductive Event :=
| InputChange (value : string)
| SpeechResult (transcript : string)
| FileChange (file : option File) (id : string)
| RemoveImage
| NewChat
| Submit
| FileRead (i : nat) (base64Data : string)
| FileReadFailed (i : nat)
| StreamOpened (i : nat)
| StreamRejected (i : nat)
| Chunk (i : nat) (chunkText : option string)
| StreamEnded (i : nat)
| StreamThrew (i : nat).

(** The activation [i] runs to its next [await] ([Some inv']) or to its
    end ([None]). *)
Definition resume (i : nat)
    (run : Invocation → ChatState →
           option (option Invocation * ChatState))
    (st : ChatState) : option ChatState :=
  inv ← pending st !! i;
  '(next, st') ← run inv st;
  Some (setPending
          (match next with
           | Some inv' => <[i := inv']> (pending st')
           | None => delete i (pending st')
           end) st').

Definition step (ev : Event) (st : ChatState) : option ChatState :=
  match ev with
  | InputChange value => Some (setInput value st)
  | SpeechResult transcript => Some (onresult transcript st)
  | FileChange file id => Some (handleFileChange file id st)
  | RemoveImage => Some (handleRemoveImage st)
  | NewChat => Some (handleNewChat st)
  | Submit => Some (handleSubmit st)
  | FileRead i base64Data =>
      resume i (λ inv st,
        match phase inv with
        | reading => Some (on_file_read base64Data inv st)
        | _ => None
        end) st
  | FileReadFailed i =>
      resume i (λ inv st,
        match phase inv with
        | reading => Some (None, on_throw Rejected st)
        | _ => None
        end) st
  | StreamOpened i =>
      resume i (λ inv st,
        match phase inv with
        | opening =>
            Some (Some {| currentInput := currentInput inv;
                          currentImage := currentImage inv;
                          phase := streaming loop_start |}, st)
        | _ => None
        end) st
  | StreamRejected i =>
      resume i (λ inv st,
        match phase inv with
        | opening => Some (None, on_throw Rejected st)
        | _ => None
        end) st
  | Chunk i chunkText =>
      resume i (λ inv st,
        match phase inv with
        | streaming v =>
            '(v', st') ← on_chunk chunkText v st;
            Some (Some {| currentInput := currentInput inv;
                          currentImage := currentImage inv;
                          phase := streaming v' |}, st')
        | _ => None
        end) st
  | StreamEnded i =>
      resume i (λ inv st,
        match phase inv with
        | streaming v => Some (None, on_done v st)
        | _ => None
        end) st
  | StreamThrew i =>
      resume i (λ inv st,
        match phase inv with
        | streaming _ => Some (None, on_throw Rejected st)
        | _ => None
        end) st
  end.

(** The component as it is mounted on a message list. [isLoading] and the
    rest of its state last as long as it stays mounted; what follows is
    about one mounted component. *)
Definition mount (h : list ChatMessage) (ms : list nat) : ChatState :=
  {| heap := h; messages := ms;
     input := ""; isLoading := false;
     image := None; imagePreview := None;
     geminiChat := Some (createChat (Some (history (contents h ms))));
     pending := []; requests := []; errors := [] |}.

(** The events in which the stream of the activation [i] is consumed. *)
Fixpoint stream_events (i : nat) (stream : list StreamEvent) : list Event :=
  match stream with
  | [] => [StreamEnded i]
  | failure :: _ => [StreamThrew i]
  | fragment chunkText :: rest => Chunk i chunkText :: stream_events i rest
  end.

Fixpoint run (events : list Event) (st : ChatState) : option ChatState :=
  match events with
  | [] => Some st
  | ev :: rest => st' ← step ev st; run rest st'
  end.

(** The states of one mounted chat component: from its mount, by its own
    events. What [App] does with chat components, unmounting one at
    sign-out and mounting another at sign-in while the activations of the
    first are still suspended, is in [Page]. *)
Inductive reachable : ChatState → Prop :=
| reachable_mount h ms : reachable (mount h ms)
| reachable_step st ev st' :
    reachable st → step ev st = Some st' → reachable st'.

(** A response stream is in flight in the mounted component: an
    activation of its [handleSubmit] is suspended between its submit and
    its [finally]. *)
Definition in_flight (st : ChatState) : Prop := pending st ≠ [].

(** [st'] is [st] with the objects [new] added to the store and referred
    to, in this order, at the end of [messages]: what was in the store
    and in the array before is as it was. *)
Definition appended (st : ChatState) (new : list ChatMessage)
    (st' : ChatState) : Prop :=
  heap st' = heap st ++ new ∧
  messages st' = messages st ++ seq (length (heap st)) (length new).

(** The chunks before the first throw of a stream. *)
Fixpoint delivered (stream : list StreamEvent) : list (option string) :=
  match stream with
  | fragment chunkText :: rest => chunkText :: delivered rest
  | _ => []
  end.

(** The stream throws. *)
Fixpoint raises (stream : list StreamEvent) : bool :=
  match stream with
  | [] => false
  | failure :: _ => true
  | fragment _ :: rest => raises rest
  end.

(** ** The invariant of the data model *)

(** At least one of [text] and [imageUrl] holds a non-empty value. *)
Definition has_content (msg : ChatMessage) : bool :=
  truthy (text msg) || truthyN (imageUrl msg).

(** Every message of the list has. *)
Definition content_invariant (st : ChatState) : Prop :=
  Forall (λ msg, has_content msg = true)
         (contents (heap st) (messages st)).

(** A message that shows an image only, by a transient reference. *)
Definition image_only_transient (msg : ChatMessage) : Prop :=
  truthy (text msg) = false ∧ transient (imageUrl msg).

(** At most one activation is suspended, and the loading flag is set
    while it is. *)
Definition guarded (st : ChatState) : Prop :=
  pending st = [] ∨ (isLoading st = true ∧ length (pending st) = 1).

(** [image] and [imagePreview] are set together, the preview to an object
    URL. *)
Definition coupled (st : ChatState) : Prop :=
  match image st with
  | Some _ => ∃ id, imagePreview st = Some (createObjectURL id)
  | None => True
  end.

(** * The rest of the chat component *)

(** The send button: [disabled={isLoading || (!input.trim() && !image)}]. *)
Definition submit_disabled (st : ChatState) : bool :=
  isLoading st
  || (negb (nonempty (trim (input st)))
      && negb (bool_decide (is_Some (image st)))).

(** The activation an event resumes. *)
Definition activation (ev : Event) : option nat :=
  match ev with
  | FileRead i _ | FileReadFailed i | StreamOpened i | StreamRejected i
  | Chunk i _ | StreamEnded i | StreamThrew i => Some i
  | _ => None
  end.

(** The [await] an event resolves. *)
Definition resolves (ev : Event) (p : Phase) : bool :=
  match ev, p with
  | FileRead _ _, reading | FileReadFailed _, reading
  | StreamOpened _, opening | StreamRejected _, opening
  | Chunk _ _, streaming _ | StreamEnded _, streaming _
  | StreamThrew _, streaming _ => true
  | _, _ => false
  end.

(** An event can happen: the activation it resumes is suspended at the
    [await] it resolves. The events of the user always can. *)
Definition enabled (ev : Event) (st : ChatState) : Prop :=
  match activation ev with
  | Some i => ∃ inv, pending st !! i = Some inv ∧
                     resolves ev (phase inv) = true
  | None => True
  end.

(** Every reference of [messages] is to an object of the store. *)
Definition allocated (st : ChatState) : Prop :=
  Forall (λ l, l < length (heap st)) (messages st).

(** The session the ref holds is the one the effect made of the current
    messages. *)
Definition session_current (st : ChatState) : Prop :=
  geminiChat st
  = Some (createChat (Some (history (contents (heap st) (messages st))))).

Definition text_part (t : string) : Genai.Part :=
  {| Genai.text := Some t; Genai.inlineData := None |}.

Definition image_part (b : Genai.Blob) : Genai.Part :=
  {| Genai.text := None; Genai.inlineData := Some b |}.

(** The parts of a request: a text that is not blank, an image, or an
    image and then such a text. *)
Definition parts_ok (parts : list Genai.Part) : Prop :=
  (∃ t, nonempty (trim t) = true ∧ parts = [text_part t]) ∨
  (∃ b, parts = [image_part b]) ∨
  (∃ b t, nonempty (trim t) = true ∧ parts = [image_part b; text_part t]).

(** What the handlers keep true of a mounted component. *)
Definition well_run (st : ChatState) : Prop :=
  session_current st ∧
  (pending st ≠ [] → messages st ≠ []) ∧
  Forall (λ inv, phase inv = reading → is_Some (currentImage inv))
         (pending st) ∧
  Forall (λ request, parts_ok request.2) (requests st) ∧
  Forall (λ e, e = Rejected) (errors st).

(** What is selected is an image, shown by an object URL; nothing selected,
    nothing shown. *)
Definition selection_ok (st : ChatState) : Prop :=
  match image st with
  | Some f => String.prefix "image/" (type f) = true ∧
              ∃ id, imagePreview st = Some (createObjectURL id)
  | None => imagePreview st = None
  end.

(** The image references of the list are missing, [null], empty or
    transient. *)
Definition image_refs_transient (st : ChatState) : Prop :=
  Forall (λ msg, truthyN (imageUrl msg) = false ∨ transient (imageUrl msg))
         (contents (heap st) (messages st)).

(** The message of the user for the input and the preview. *)
Definition user_message (currentInput : string)
    (currentImagePreview : option string) : ChatMessage :=
  {| role := user; text := Some currentInput;
     imageUrl := match currentImagePreview with
                 | Some url => str url
                 | None => null
                 end |}.

(** What [loadChatHistory] returns, by the two things it depends on:
    whether the store can be read, and the entry of the account. *)
Definition loaded_from (is_denied : bool) (entry : option Text)
  : list ChatMessage :=
  if is_denied then []
  else match entry with
       | Some (json messages) => messages
       | _ => []
       end.

(** * [fileToBase64] *)

(** [s.split(sep)] for a separator of one character: the text before the
    first separator and the list of the texts after it. *)
Fixpoint split_first (sep : ascii) (s : string) : string * list string :=
  match s with
  | EmptyString => (EmptyString, [])
  | String c rest =>
      let '(first, others) := split_first sep rest in
      if Ascii.eqb c sep then (EmptyString, first :: others)
      else (String c first, others)
  end.

Definition split (sep : ascii) (s : string) : list string :=
  let '(first, others) := split_first sep s in first :: others.

(** How the [FileReader] ends: [onload] with [reader.result], the data URL,
    or [onerror]. *)
Inductive ReadOutcome :=
| onload (result : string)
| onerror.

(** The promise of [fileToBase64]: resolved with
    [(reader.result as string).split(',')[1]], [None] for [undefined], or
    rejected. *)
Definition fileToBase64 (outcome : ReadOutcome)
  : Completion (option string) :=
  match outcome with
  | onload result => normal (split "," result !! 1)
  | onerror => throw Rejected
  end.

Fixpoint contains (c : ascii) (s : string) : bool :=
  match s with
  | EmptyString => false
  | String d rest => Ascii.eqb d c || contains c rest
  end.

(** * [MessageRenderer]: the [code] component *)

(** [\w] *)
Definition is_word_char (c : ascii) : bool :=
  let n := nat_of_ascii c in
  ((48 <=? n) && (n <=? 57)) || ((65 <=? n) && (n <=? 90))
  || ((97 <=? n) && (n <=? 122)) || (n =? 95).

(** The longest run of word characters at the start. *)
Fixpoint take_word (s : string) : string :=
  match s with
  | String c rest => if is_word_char c then String c (take_word rest)
                     else EmptyString
  | EmptyString => EmptyString
  end.

Fixpoint drop_chars (n : nat) (s : string) : string :=
  match n, s with
  | S n', String _ rest => drop_chars n' rest
  | _, _ => s
  end.

(** [/language-(\w+)/.exec(s)], the first group: at the leftmost place
    where [language-] is followed by a word character, the run of word
    characters. *)
Fixpoint exec_language (s : string) : option string :=
  match s with
  | EmptyString => None
  | String _ rest =>
      if String.prefix "language-" s && nonempty (take_word (drop_chars 9 s))
      then Some (take_word (drop_chars 9 s))
      else exec_language rest
  end.

(** [s.replace(/\n$/, '')]: a line feed at the very end is removed. *)
Fixpoint replace_final_newline (s : string) : string :=
  match s with
  | EmptyString => EmptyString
  | String c rest =>
      if Ascii.eqb c "010" && String.eqb rest "" then EmptyString
      else String c (replace_final_newline rest)
  end.

Inductive CodeElement :=
| SyntaxHighlighter (language : string) (children : string)
| code_tag (children : string).

(** [code({ className, children })]: [className || ''] is searched;
    [children] is the text [String(children)]. *)
Definition code (className : option string) (children : string)
  : CodeElement :=
  match exec_language (default "" className) with
  | Some language =>
      SyntaxHighlighter language (replace_final_newline children)
  | None => code_tag children
  end.

Definition all_word (s : string) : Prop :=
  ∀ c, contains c s = true → is_word_char c = true.

(** * The auth component *)

Module AuthComponent.

(** What is asked of the auth provider. *)
Inductive Call :=
| signInWithEmailAndPassword (email password : string)
| createUserWithEmailAndPassword (email password : string).

(** How the promise of a call settles; [message] is [err.message]. *)
Inductive Settled :=
| fulfilled
| rejected (message : option string).

Record State := {
  isLoginView : bool;
  email : string;
  password : string;
  error : string;
  isLoading : bool;
  calls : list Call;
}.

Definition initial : State :=
  {| isLoginView := true; email := ""; password := ""; error := "";
     isLoading := false; calls := [] |}.

(** [handleSubmit] up to its [await]. *)
Definition handleSubmit (st : State) : State :=
  if negb (nonempty (trim (email st)))
     || negb (nonempty (trim (password st)))
  then {| isLoginView := isLoginView st; email := email st;
          password := password st;
          error := "Email and password cannot be empty.";
          isLoading := isLoading st; calls := calls st |}
  else {| isLoginView := isLoginView st; email := email st;
          password := password st; error := "";
          isLoading := true;
          calls := calls st ++
            [ if isLoginView st
              then signInWithEmailAndPassword (email st) (password st)
              else createUserWithEmailAndPassword (email st)
                                                  (password st) ] |}.

(** The rest of [handleSubmit], once the call has settled:
    [catch (err) { setError(err.message || 'An unknown error occurred.') }
     finally { setIsLoading(false) }]. *)
Definition settle (outcome : Settled) (st : State) : State :=
  {| isLoginView := isLoginView st; email := email st;
     password := password st;
     error := match outcome with
              | fulfilled => error st
              | rejected message =>
                  if truthy message then default "" message
                  else "An unknown error occurred."
              end;
     isLoading := false; calls := calls st |}.

Definition toggleView (st : State) : State :=
  {| isLoginView := negb (isLoginView st); email := ""; password := "";
     error := ""; isLoading := isLoading st; calls := calls st |}.

Inductive Event :=
| EmailChange (value : string)
| PasswordChange (value : string)
| Submit
| Settle (outcome : Settled)
| ToggleView.

Definition step (ev : Event) (st : State) : State :=
  match ev with
  | EmailChange value =>
      {| isLoginView := isLoginView st; email := value;
         password := password st; error := error st;
         isLoading := isLoading st; calls := calls st |}
  | PasswordChange value =>
      {| isLoginView := isLoginView st; email := email st;
         password := value; error := error st;
         isLoading := isLoading st; calls := calls st |}
  | Submit => handleSubmit st
  | Settle outcome => settle outcome st
  | ToggleView => toggleView st
  end.

Inductive reachable : State → Prop :=
| reachable_initial : reachable initial
| reachable_step st ev : reachable st → reachable (step ev st).

(** The credentials of a call. *)
Definition credentials (c : Call) : string * string :=
  match c with
  | signInWithEmailAndPassword e p => (e, p)
  | createUserWithEmailAndPassword e p => (e, p)
  end.

End AuthComponent.

(** * The root component *)

Module App.

(** The state of [App]; [user] is the [uid] of the [firebase.User]. The
    handlers read and store what the messages hold, so [messages] is the
    list of their contents. *)
Record State := {
  user : option string;
  authLoading : bool;
  messages : list ChatMessage;
}.

Definition initial : State :=
  {| user := None; authLoading := true; messages := [] |}.

(** The effect with the dependencies [[messages, user]]. *)
Definition persist (st : State) : JS () :=
  match user st with
  | Some uid => saveChatHistory uid (messages st)
  | None => mret ()
  end.

(** The listener of [auth.onAuthStateChanged], then the effect: the
    updates of the listener are rendered together. The effect that
    registers the listener has no dependencies, so the listener keeps the
    [initialWelcomeMessage] object of the first render for as long as the
    page lives; the streaming loop assigns to the [text] of whatever object
    is last in the list, which can be that one. [greeting] is what that
    object holds when the listener is called. [history.length] is read of
    what [loadChatHistory] returned, a list for every text of the model;
    a stored JSON text of another shape is outside it (for a stored
    [null] the listener would throw here). *)
Definition onAuthStateChanged (greeting : ChatMessage)
    (firebaseUser : option string) (st : State) : JS State :=
  st' ← match firebaseUser with
        | Some uid =>
            history ← loadChatHistory uid;
            mret {| user := Some uid; authLoading := false;
                    messages := if 0 <? length history then history
                                else [greeting] |}
        | None =>
            mret {| user := None; authLoading := false; messages := [] |}
        end;
  _ ← persist st'; mret st'.

(** [setMessages(value)], then the effect. *)
Definition setMessages (value : list ChatMessage) (st : State) : JS State :=
  let st' := {| user := user st; authLoading := authLoading st;
                messages := value |} in
  _ ← persist st'; mret st'.

(** [handleNewChat] is made anew at every render, with the
    [initialWelcomeMessage] object of that render, which nothing else
    refers to before the call: it holds the greeting. *)
Definition handleNewChat (st : State) : JS State :=
  setMessages [initialWelcomeMessage] st.

(** What [App] returns. *)
Inductive Screen :=
| Spinner
| AuthScreen
| ChatScreen (uid : string) (messages : list ChatMessage).

Definition render (st : State) : Screen :=
  if authLoading st then Spinner
  else match user st with
       | None => AuthScreen
       | Some uid => ChatScreen uid (messages st)
       end.

End App.


(** * The page: [App] and the chat components it mounts *)

(** [isLoading], [input], the selection and the ref [geminiChat] belong to
    a [ChatComponent]; [messages] belongs to [App]. When the user signs
    out, [App] renders [AuthComponent] and the chat component is
    unmounted; when a user signs in, [App] renders a new chat component,
    whose state starts from the initial values. An activation of
    [handleSubmit] that is suspended at an [await] is not cancelled by
    either: it outlives its component. *)

Module Page.

(** An activation of [handleSubmit] whose component has been unmounted. It
    goes on when its [await] settles. Its [setMessages] is the one of
    [App], which stays mounted; its [setIsLoading] is the one of the
    unmounted component and changes nothing; [ref] is what
    [geminiChat.current] of that component holds, which no effect assigns
    to any more. *)
Record Orphan := {
  suspended : Invocation;
  ref : option Genai.Chat;
}.

(** [user] is the [uid] of the user of [App]. [App] renders
    [ChatComponent] when it has a user and [authLoading] is false; it has
    no user before the first call of the listener, which clears
    [authLoading] for good, so a chat component is mounted exactly when
    [user] is set. [chat] holds the store of message objects, the
    [messages] of [App], the requests sent and the console, and the state
    of the chat component while one is mounted. *)
Record State := {
  user : option string;
  chat : ChatState;
  orphans : list Orphan;
}.

(** The [initialWelcomeMessage] object of the first render of [App], the
    one the listener of [auth.onAuthStateChanged] keeps: the first object
    of the store. *)
Definition greeting : nat := 0.

(** No chat component is mounted: there is no component state. *)
Definition no_component (h : list ChatMessage) (ms : list nat)
    (st : ChatState) : ChatState :=
  {| heap := h; messages := ms;
     input := ""; isLoading := false;
     image := None; imagePreview := None;
     geminiChat := None;
     pending := []; requests := requests st; errors := errors st |}.

(** A new chat component is mounted on [messages]: [useState] gives the
    initial values, and the effect creates the session of a new ref. *)
Definition mounted (h : list ChatMessage) (ms : list nat)
    (st : ChatState) : ChatState :=
  {| heap := h; messages := ms;
     input := ""; isLoading := false;
     image := None; imagePreview := None;
     geminiChat := Some (createChat (Some (history (contents h ms))));
     pending := []; requests := requests st; errors := errors st |}.

Definition initial : State :=
  {| user := None;
     chat := {| heap := [initialWelcomeMessage]; messages := [];
                input := ""; isLoading := false;
                image := None; imagePreview := None;
                geminiChat := None;
                pending := []; requests := []; errors := [] |};
     orphans := [] |}.

(** The listener of [auth.onAuthStateChanged]; [history] is what
    [loadChatHistory(firebaseUser.uid)] returned, a list of new objects.
    With a user: the loaded list if it is not empty, else the greeting
    object the listener keeps; a chat component that is mounted stays,
    with its state, and otherwise a new one is mounted. Without a user:
    the empty list; the chat component is unmounted and its suspended
    activations are orphans from then on. What the effect of [App] then
    saves is left to [App.onAuthStateChanged]: saving changes no object. *)
Definition onAuthStateChanged (firebaseUser : option string)
    (history : list ChatMessage) (pg : State) : State :=
  let st := chat pg in
  match firebaseUser with
  | Some uid =>
      let '(h, ms) :=
        if 0 <? length history
        then (heap st ++ history, seq (length (heap st)) (length history))
        else (heap st, [greeting]) in
      {| user := Some uid;
         chat := match user pg with
                 | Some _ => setMessages h ms st
                 | None => mounted h ms st
                 end;
         orphans := orphans pg |}
  | None =>
      {| user := None;
         chat := no_component (heap st) [] st;
         orphans :=
           orphans pg ++
           map (λ inv, {| suspended := inv; ref := geminiChat st |})
               (pending st) |}
  end.

(** The events of a chat component, as opposed to those of the page. *)
Definition ComponentEvent : Type := Event.

(** The [await] of the orphan an event names settles, and the activation
    runs to its next [await] or to its end: [handleSubmit] from line 256
    on, with [setIsLoading] doing nothing and [geminiChat.current] read
    from the ref of the orphan. [None] as in [step]: the event cannot
    happen, or the updater of line 284 throws. *)
Definition resume (ev : ComponentEvent) (pg : State) : option State :=
  i ← activation ev;
  o ← orphans pg !! i;
  let inv := suspended o in
  let st := chat pg in
  '(next, st') ←
    match ev, phase inv with
    | FileRead _ base64Data, reading =>
        match currentImage inv, ref o with
        | Some f, Some session =>
            let parts :=
              messageParts
                (Some {| Genai.mimeType := type f;
                         Genai.data := base64Data |})
                (currentInput inv) in
            Some (Some opening, sendMessageStream session parts st)
        | _, _ => Some (None, catch TypeError st)
        end
    | FileReadFailed _, reading => Some (None, catch Rejected st)
    | StreamOpened _, opening => Some (Some (streaming loop_start), st)
    | StreamRejected _, opening => Some (None, catch Rejected st)
    | Chunk _ chunkText, streaming v =>
        '(v', st') ← on_chunk chunkText v st;
        Some (Some (streaming v'), st')
    | StreamEnded _, streaming v =>
        Some (None, if firstChunk v then append fallback_message st else st)
    | StreamThrew _, streaming _ => Some (None, catch Rejected st)
    | _, _ => None
    end;
  Some {| user := user pg;
          chat := match user pg with
                  | Some _ => st'
                  | None => no_component (heap st') (messages st') st'
                  end;
          orphans :=
            match next with
            | Some p =>
                <[i := {| suspended :=
                            {| currentInput := currentInput inv;
                               currentImage := currentImage inv;
                               phase := p |};
                          ref := ref o |}]> (orphans pg)
            | None => delete i (orphans pg)
            end |}.

(** What happens on the page, one event at a time: an event of the
    mounted chat component; the listener called with a user, [history]
    being what [loadChatHistory] returns for it, or with [null]; the
    [await] of an orphan settling. *)
Inductive Event :=
| Component (ev : ComponentEvent)
| SignedIn (uid : string) (history : list ChatMessage)
| SignedOut
| Orphaned (ev : ComponentEvent).

Definition step (ev : Event) (pg : State) : option State :=
  match ev with
  | Component ev' =>
      match user pg with
      | Some _ =>
          st' ← step ev' (chat pg);
          Some {| user := user pg; chat := st'; orphans := orphans pg |}
      | None => None
      end
  | SignedIn uid history => Some (onAuthStateChanged (Some uid) history pg)
  | SignedOut => Some (onAuthStateChanged None [] pg)
  | Orphaned ev' => resume ev' pg
  end.

Fixpoint run (events : list Event) (pg : State) : option State :=
  match events with
  | [] => Some pg
  | ev :: rest => pg' ← step ev pg; run rest pg'
  end.

Inductive reachable : State → Prop :=
| reachable_initial : reachable initial
| reachable_step pg ev pg' :
    reachable pg → step ev pg = Some pg' → reachable pg'.

(** A response is in flight on the page: an activation of [handleSubmit],
    of the mounted component or of one unmounted since, is suspended at
    the loop over its stream. *)
Definition streaming_in_flight (pg : State) : Prop :=
  ∃ inv v, phase inv = streaming v ∧
           (inv ∈ pending (chat pg) ∨ inv ∈ map suspended (orphans pg)).

End Page.
(** * Properties of the history reconstructor *)

Lemma truthy_spec v : truthy v = true ↔ ∃ t, v = Some t ∧ t ≠ "".
Proof.
  destruct v as [[|a s]|]; simpl; split; try discriminate.
  - intros (t & [= <-] & Hne). by destruct Hne.
  - intros _. by exists (String a s).
  - done.
  - by intros (t & ? & _).
Qed.

Lemma filter_text_sublist (messages : list ChatMessage) :
  List.filter (fun msg => truthy (text msg)) messages `sublist_of` messages.
Proof.
  induction messages as [|msg rest IH]; simpl; [constructor|].
  destruct (truthy (text msg)); by constructor.
Qed.

Lemma filter_text_length (messages : list ChatMessage) :
  length (List.filter (fun msg => truthy (text msg)) messages)
  = text_count messages.
Proof.
  induction messages as [|msg rest IH]; simpl; [done|].
  destruct (text msg) as [[|a s]|]; simpl; by rewrite ?IH.
Qed.

Lemma text_count_le (messages : list ChatMessage) :
  text_count messages ≤ length messages.
Proof.
  induction messages as [|msg rest IH]; simpl; [lia|].
  destruct (text msg) as [[|a s]|]; lia.
Qed.

Lemma history_length (messages : list ChatMessage) :
  length (history messages) = text_count messages.
Proof. unfold history. by rewrite length_map, filter_text_length. Qed.

(** C1. For every message list the reconstructed context is the image of
    the sublist of the messages with a non-empty text: the retained
    messages are in their original relative order and are the messages
    whose text is present and non-empty, each context entry carries the
    role and the text of its message in one text part, the number of
    entries is the number of messages with a non-empty text and is at most
    the input length; the empty list gives the empty context. *)
Theorem history_keeps_text_messages (messages : list ChatMessage) :
  (∃ kept : list ChatMessage,
      kept `sublist_of` messages ∧
      (∀ msg, msg ∈ kept ↔ msg ∈ messages ∧ truthy (text msg) = true) ∧
      length kept = text_count messages ∧
      Forall2 context_of kept (history messages)) ∧
  length (history messages) = text_count messages ∧
  length (history messages) ≤ length messages ∧
  history [] = [].
Proof.
  split; [|split; [apply history_length|split; [|done]]].
  - exists (List.filter (fun msg => truthy (text msg)) messages).
    split; [apply filter_text_sublist|].
    split; [intros msg; by rewrite !list_elem_of_In, filter_In|].
    split; [apply filter_text_length|].
    unfold history.
    induction messages as [|msg rest IH]; simpl; [constructor|].
    destruct (truthy (text msg)) eqn:Ht; [|exact IH].
    simpl. constructor; [|exact IH].
    apply truthy_spec in Ht as (t & Ht & Hne).
    split; [done|]. exists t. simpl. by rewrite Ht.
  - rewrite history_length. apply text_count_le.
Qed.

(** * Properties of the stream accumulator *)

Lemma string_app_assoc (a b c : string) : (a +:+ b) +:+ c = a +:+ (b +:+ c).
Proof.
  induction a as [|x a IH]; [done|].
  change (String x ((a +:+ b) +:+ c) = String x (a +:+ (b +:+ c))).
  by rewrite IH.
Qed.

Lemma string_app_empty_r (a : string) : a +:+ "" = a.
Proof.
  induction a as [|x a IH]; [done|].
  change (String x (a +:+ "") = String x a). by rewrite IH.
Qed.

Lemma falsy_default (c : option string) :
  truthy c = false → default "" c = "".
Proof. by destruct c as [[|x s]|]. Qed.

Lemma setMessages_twice h1 ms1 h2 ms2 st :
  setMessages h2 ms2 (setMessages h1 ms1 st) = setMessages h2 ms2 st.
Proof. reflexivity. Qed.

(** Assigning to the text of the message that was just appended gives the
    state in which the message was appended with the new text. *)
Lemma replace_last_text_append t msg st :
  replace_last_text t (append msg st) = Some (append (assign_text t msg) st).
Proof.
  unfold replace_last_text, append at 1 2. cbn [messages heap setMessages].
  rewrite last_snoc.
  replace (length (heap st)) with (length (heap st) + 0) at 1 by lia.
  rewrite alter_app_r. reflexivity.
Qed.

(** The loop after the first non-empty chunk: the appended message holds
    the response so far. *)
Lemma consume_streaming chunks mr st :
  consume chunks {| modelResponse := mr; firstChunk := false |}
          (append (model_message mr) st)
  = Some ({| modelResponse := mr +:+ concat_fragments chunks;
             firstChunk := false |},
          append (model_message (mr +:+ concat_fragments chunks)) st).
Proof.
  revert mr. induction chunks as [|c chunks IH]; intros mr; simpl.
  - by rewrite string_app_empty_r.
  - unfold on_chunk. destruct (truthy c) eqn:Hc; simpl.
    + rewrite replace_last_text_append. simpl.
      change (assign_text ?t (model_message _)) with (model_message t).
      rewrite IH. by rewrite string_app_assoc.
    + rewrite (falsy_default _ Hc). simpl. apply IH.
Qed.

(** The loop from its start. *)
Lemma consume_from_start chunks st :
  consume chunks loop_start st
  = Some (if existsb truthy chunks
          then ({| modelResponse := concat_fragments chunks;
                   firstChunk := false |},
                append (model_message (concat_fragments chunks)) st)
          else (loop_start, st)).
Proof.
  induction chunks as [|c chunks IH]; simpl; [done|].
  unfold on_chunk. destruct (truthy c) eqn:Hc; simpl.
  - by rewrite consume_streaming.
  - rewrite (falsy_default _ Hc). simpl. exact IH.
Qed.

Lemma for_await_delivered stream v st :
  for_await stream v st
  = '(v', st') ← consume (delivered stream) v st;
    Some (if raises stream then on_throw Rejected st' else on_done v' st').
Proof.
  revert v st. induction stream as [|[c|] stream IH]; intros v st; simpl;
    [done| |done].
  destruct (on_chunk c v st) as [[v' st']|]; simpl; [apply IH|done].
Qed.

Lemma delivered_fragments chunks rest :
  delivered (map fragment chunks ++ rest) = chunks ++ delivered rest.
Proof. induction chunks as [|c chunks IH]; simpl; [done|]. by rewrite IH. Qed.

Lemma raises_fragments chunks rest :
  raises (map fragment chunks ++ rest) = raises rest.
Proof. induction chunks as [|c chunks IH]; simpl; done. Qed.

(** The accumulator, in one equation: the partial message, if a non-empty
    chunk was delivered, then the apology or, failing both, the
    fallback. *)
Lemma accumulate_eq stream st :
  accumulate stream st
  = Some (finally
      (let chunks := delivered stream in
       let partial :=
         if existsb truthy chunks
         then append (model_message (concat_fragments chunks)) st else st in
       if raises stream then catch Rejected partial
       else if existsb truthy chunks then partial
       else append fallback_message st)).
Proof.
  unfold accumulate. rewrite for_await_delivered.
  rewrite consume_from_start. simpl.
  destruct (existsb truthy (delivered stream)), (raises stream); reflexivity.
Qed.

Lemma existsb_truthy_false chunks :
  Forall (λ c, truthy c = false) chunks ↔ existsb truthy chunks = false.
Proof.
  induction chunks as [|c chunks IH]; simpl; [done|].
  rewrite Forall_cons, orb_false_iff. by rewrite IH.
Qed.

Lemma concat_fragments_app xs ys :
  concat_fragments (xs ++ ys) = concat_fragments xs +:+ concat_fragments ys.
Proof.
  induction xs as [|x xs IH]; simpl; [done|].
  by rewrite IH, string_app_assoc.
Qed.

Lemma concat_fragments_falsy chunks :
  Forall (λ c, truthy c = false) chunks → concat_fragments chunks = "".
Proof.
  induction 1 as [|c chunks Hc _ IH]; simpl; [done|].
  by rewrite (falsy_default _ Hc), IH.
Qed.

Lemma existsb_truthy_app xs ys :
  existsb truthy (xs ++ ys) = existsb truthy xs || existsb truthy ys.
Proof. apply existsb_app. Qed.

Lemma appended_append msg st : appended st [msg] (append msg st).
Proof. by split. Qed.

Lemma appended_finally st new st' :
  appended st new st' → appended st new (finally st').
Proof. by intros [??]. Qed.

(** ** The accumulator and the events of the component *)

Lemma on_chunk_setPending c v invs st :
  on_chunk c v (setPending invs st)
  = '(v', st') ← on_chunk c v st; Some (v', setPending invs st').
Proof.
  unfold on_chunk, replace_last_text. cbn [messages setPending].
  destruct (truthy c); [|done]. destruct (firstChunk v); [done|].
  by destruct (last (messages st)).
Qed.

Lemma run_stream_events stream v ci cim st :
  run (stream_events 0 stream)
      (setPending [ {| currentInput := ci; currentImage := cim;
                       phase := streaming v |} ] st)
  = setPending [] <$> for_await stream v st.
Proof.
  revert v st. induction stream as [|[c|] stream IH]; intros v st.
  - simpl. unfold resume, on_done. simpl. by destruct (firstChunk v).
  - cbn [stream_events run step for_await]. unfold resume.
    cbn [pending setPending lookup list_lookup mbind option_bind phase].
    rewrite on_chunk_setPending.
    destruct (on_chunk c v st) as [[v' st']|]; [|done].
    cbn [mbind option_bind]. exact (IH v' st').
  - reflexivity.
Qed.

(** From the opening of the stream to its end, the events of one
    activation do to the component what [accumulate] does, and the
    activation is gone. *)
Lemma run_accumulate stream ci cim st :
  run (StreamOpened 0 :: stream_events 0 stream)
      (setPending [ {| currentInput := ci; currentImage := cim;
                       phase := opening |} ] st)
  = setPending [] <$> accumulate stream st.
Proof. apply (run_stream_events stream loop_start ci cim st). Qed.

Lemma appended_catch e st : appended st [apology_message] (catch e st).
Proof. by split. Qed.

Lemma appended_trans st new1 st1 new2 st2 :
  appended st new1 st1 → appended st1 new2 st2 →
  appended st (new1 ++ new2) st2.
Proof.
  intros [Hh1 Hm1] [Hh2 Hm2]. split.
  - by rewrite Hh2, Hh1, <-app_assoc.
  - rewrite Hm2, Hm1, Hh1, <-app_assoc, !length_app, seq_app. done.
Qed.

Lemma appended_untouched st new st' i l msg :
  appended st new st' →
  messages st !! i = Some l → heap st !! l = Some msg →
  messages st' !! i = Some l ∧ heap st' !! l = Some msg.
Proof.
  intros [Hh Hm] Hi Hl. rewrite Hh, Hm.
  split; by apply lookup_app_l_Some.
Qed.

(** What one run of the accumulator adds, for every stream. *)
Lemma accumulate_appended stream st :
  ∃ st', accumulate stream st = Some st' ∧
    appended st
      ((if existsb truthy (delivered stream)
        then [model_message (concat_fragments (delivered stream))]
        else if raises stream then [] else [fallback_message])
       ++ (if raises stream then [apology_message] else []))
      st'.
Proof.
  rewrite accumulate_eq. eexists; split; [done|]. apply appended_finally.
  cbv zeta.
  destruct (existsb truthy (delivered stream)), (raises stream); simpl.
  - eapply (appended_trans st [_] _ [_]);
      [apply appended_append|apply appended_catch].
  - apply appended_append.
  - apply appended_catch.
  - apply appended_append.
Qed.

Lemma first_truthy_split chunks :
  existsb truthy chunks = true →
  ∃ pre t rest,
    chunks = pre ++ Some t :: rest ∧
    Forall (λ c, truthy c = false) pre ∧ t ≠ "".
Proof.
  induction chunks as [|c chunks IH]; simpl; [discriminate|].
  destruct (truthy c) eqn:Hc; simpl.
  - intros _. apply truthy_spec in Hc as (t & -> & Ht).
    by exists [], t, chunks.
  - intros (pre & t & rest & -> & Hpre & Ht)%IH.
    exists (c :: pre), t, rest. split; [done|]. split; [|done].
    by constructor.
Qed.

(** C2. Every fragment sequence with a non-empty fragment has a first
    one, [t], after the empty ones [pre]. At [t] one message with role
    model and the text [t] is appended; after each fragment that follows,
    the list ends with that same message (the same object at the same
    place, nothing else added) and its text is the concatenation of all
    the fragments received so far; and so it is when the sequence has
    ended. For the fragments "Hel", "lo", " there" the texts are "Hel",
    "Hello" and at the end "Hello there". *)
Theorem stream_text_accumulates (chunks : list (option string))
    (st : ChatState) :
  existsb truthy chunks = true →
  let shown (seen : list (option string)) (txt : string) : Prop :=
    ∃ v st', consume seen loop_start st = Some (v, st') ∧
      appended st [ {| role := model; text := Some txt;
                       imageUrl := undefined |} ] st' in
  let ended (all : list (option string)) (txt : string) : Prop :=
    ∃ st', accumulate (map fragment all) st = Some st' ∧
      appended st [ {| role := model; text := Some txt;
                       imageUrl := undefined |} ] st' in
  (∃ pre t rest,
     chunks = pre ++ Some t :: rest ∧
     Forall (λ c, truthy c = false) pre ∧ t ≠ "" ∧
     shown (pre ++ [Some t]) t ∧
     (∀ more, more `prefix_of` rest →
        shown (pre ++ Some t :: more)
              (concat_fragments (pre ++ Some t :: more)))) ∧
  ended chunks (concat_fragments chunks) ∧
  shown [Some "Hel"] "Hel" ∧
  shown [Some "Hel"; Some "lo"] "Hello" ∧
  ended [Some "Hel"; Some "lo"; Some " there"] "Hello there".
Proof.
  intros Hchunks shown ended.
  assert (Hshown : ∀ seen, existsb truthy seen = true →
            shown seen (concat_fragments seen)).
  { intros seen Hex. unfold shown. rewrite consume_from_start, Hex.
    do 2 eexists. split; [done|]. apply appended_append. }
  assert (Hended : ∀ all, existsb truthy all = true →
            ended all (concat_fragments all)).
  { intros all Hex. unfold ended.
    destruct (accumulate_appended (map fragment all) st)
      as (st' & Heq & Happ).
    exists st'. split; [done|].
    replace (map fragment all) with (map fragment all ++ []) in Happ
      by apply app_nil_r.
    rewrite delivered_fragments, raises_fragments in Happ.
    simpl in Happ. by rewrite !app_nil_r, Hex in Happ. }
  split; [|split; [|split; [|split]]].
  - destruct (first_truthy_split _ Hchunks)
      as (pre & t & rest & -> & Hpre & Ht).
    assert (Htruthy : truthy (Some t) = true) by by destruct t.
    assert (Hex : ∀ more, existsb truthy (pre ++ Some t :: more) = true).
    { intros more. rewrite existsb_truthy_app. cbn [existsb].
      rewrite Htruthy. by rewrite orb_true_r. }
    exists pre, t, rest. repeat split; try done.
    + replace t with (concat_fragments (pre ++ [Some t])) at 2.
      * by apply Hshown.
      * rewrite concat_fragments_app, (concat_fragments_falsy _ Hpre).
        simpl. apply string_app_empty_r.
    + intros more _. by apply Hshown.
  - by apply Hended.
  - by apply (Hshown [Some "Hel"]).
  - by apply (Hshown [Some "Hel"; Some "lo"]).
  - by apply (Hended [Some "Hel"; Some "lo"; Some " there"]).
Qed.

Lemma stream_text_accumulates_witness :
  ∃ st',
    accumulate
      [fragment None; fragment (Some ""); fragment (Some "Hel");
       fragment (Some "lo"); fragment (Some " there")]
      (mount [initialWelcomeMessage] [0]) = Some st' ∧
    appended (mount [initialWelcomeMessage] [0])
      [ {| role := model; text := Some "Hello there";
           imageUrl := undefined |} ] st'.
Proof.
  exact (proj1 (proj2 (stream_text_accumulates
                         [None; Some ""; Some "Hel"; Some "lo";
                          Some " there"]
                         (mount [initialWelcomeMessage] [0]) eq_refl))).
Defined.

(** C3, amended. One run of the accumulator changes the message list only
    by appending at its end: every message that was in the list keeps its
    place and its content, for every stream, at the end of the run and
    after every fragment on the way. It appends exactly one message when
    the stream ends without raising an error, whatever the number of
    fragments; when the stream raises, it appends the apology, after the
    partial message if a non-empty fragment had arrived: two messages
    then, one otherwise. *)
Theorem accumulate_appends_at_end (stream : list StreamEvent)
    (st : ChatState) :
  ∃ st' new,
    accumulate stream st = Some st' ∧
    appended st new st' ∧
    (∀ i l msg, messages st !! i = Some l → heap st !! l = Some msg →
                messages st' !! i = Some l ∧ heap st' !! l = Some msg) ∧
    (raises stream = false → length new = 1) ∧
    (raises stream = true →
       length new = if existsb truthy (delivered stream) then 2 else 1) ∧
    (∀ seen v st1, consume seen loop_start st = Some (v, st1) →
       ∃ shown, appended st shown st1 ∧ length shown ≤ 1 ∧
         ∀ i l msg, messages st !! i = Some l → heap st !! l = Some msg →
                    messages st1 !! i = Some l ∧ heap st1 !! l = Some msg).
Proof.
  destruct (accumulate_appended stream st) as (st' & Heq & Happ).
  eexists st', _. split; [done|]. split; [exact Happ|].
  split; [intros i l msg; exact (appended_untouched _ _ _ i l msg Happ)|].
  split; [|split].
  - by destruct (existsb truthy (delivered stream)), (raises stream).
  - by destruct (existsb truthy (delivered stream)), (raises stream).
  - intros seen v st1. rewrite consume_from_start.
    destruct (existsb truthy seen); intros [= <- <-].
    + eexists [_]. split; [apply appended_append|]. split; [simpl; lia|].
      intros i l msg. eapply appended_untouched, appended_append.
    + exists []. split; [|split; [simpl; lia|done]].
      split; simpl; by rewrite app_nil_r.
Qed.

Lemma accumulate_appends_at_end_witness :
  ∃ st' new,
    accumulate [fragment (Some "Hel"); fragment None; fragment (Some "lo")]
               (mount [initialWelcomeMessage] [0]) = Some st' ∧
    appended (mount [initialWelcomeMessage] [0]) new st' ∧
    length new = 1.
Proof.
  destruct (accumulate_appends_at_end
              [fragment (Some "Hel"); fragment None; fragment (Some "lo")]
              (mount [initialWelcomeMessage] [0]))
    as (st' & new & Heq & Happ & _ & Hone & _).
  exists st', new. split; [exact Heq|]. split; [exact Happ|].
  apply Hone. reflexivity.
Defined.

(** C3 as stated fails: a stream that yields "Hel" and then raises makes
    one run append two messages, the partial one and the apology. *)
Lemma accumulate_appends_two :
  ∃ st',
    accumulate [fragment (Some "Hel"); failure] (mount [] []) = Some st' ∧
    messages (mount [] []) = [] ∧
    messages st' = [0; 1] ∧
    heap st' =
      [ {| role := model; text := Some "Hel"; imageUrl := undefined |};
        {| role := model;
           text := Some "Sorry, something went wrong. Please try again.";
           imageUrl := undefined |} ].
Proof. eexists. repeat split. Qed.

(** C4. A stream that ends without ever yielding a non-empty fragment,
    the empty stream included, makes the accumulator append exactly one
    message, with role model and the fixed fallback text. *)
Theorem silent_stream_gets_fallback (chunks : list (option string))
    (st : ChatState) :
  Forall (λ c, truthy c = false) chunks →
  ∃ st',
    accumulate (map fragment chunks) st = Some st' ∧
    appended st
      [ {| role := model;
           text := Some "I'm sorry, I couldn't generate a response.";
           imageUrl := undefined |} ] st'.
Proof.
  intros Hfalsy%existsb_truthy_false.
  destruct (accumulate_appended (map fragment chunks) st)
    as (st' & Heq & Happ).
  exists st'. split; [done|].
  replace (map fragment chunks) with (map fragment chunks ++ []) in Happ
    by apply app_nil_r.
  rewrite delivered_fragments, raises_fragments in Happ.
  simpl in Happ. by rewrite !app_nil_r, Hfalsy in Happ.
Qed.

Lemma silent_stream_gets_fallback_witness :
  (∃ st',
     accumulate [] (mount [] []) = Some st' ∧
     appended (mount [] [])
       [ {| role := model;
            text := Some "I'm sorry, I couldn't generate a response.";
            imageUrl := undefined |} ] st') ∧
  (∃ st',
     accumulate [fragment None; fragment (Some "")] (mount [] [])
     = Some st' ∧
     appended (mount [] [])
       [ {| role := model;
            text := Some "I'm sorry, I couldn't generate a response.";
            imageUrl := undefined |} ] st').
Proof.
  split.
  - apply (silent_stream_gets_fallback [] (mount [] [])). constructor.
  - apply (silent_stream_gets_fallback [None; Some ""] (mount [] [])).
    repeat constructor.
Defined.

(** C5. When the stream raises an error, after any number of fragments:
    the run ends normally (the error is caught, nothing is fatal); what
    the stream holds after the error plays no part; exactly one apology
    message is appended, after the partial message if a non-empty
    fragment had arrived and alone otherwise; the error is logged once;
    no request is sent and no activation is started, so nothing is
    retried; and the loading flag is cleared. *)
Theorem failing_stream_gets_apology (chunks : list (option string))
    (rest : list StreamEvent) (st : ChatState) :
  ∃ st',
    accumulate (map fragment chunks ++ failure :: rest) st = Some st' ∧
    accumulate (map fragment chunks ++ [failure]) st = Some st' ∧
    appended st
      ((if existsb truthy chunks
        then [ {| role := model; text := Some (concat_fragments chunks);
                  imageUrl := undefined |} ]
        else []) ++
       [ {| role := model;
            text := Some "Sorry, something went wrong. Please try again.";
            imageUrl := undefined |} ]) st' ∧
    errors st' = errors st ++ [Rejected] ∧
    requests st' = requests st ∧
    pending st' = pending st ∧
    isLoading st' = false.
Proof.
  destruct (accumulate_appended (map fragment chunks ++ failure :: rest) st)
    as (st' & Heq & Happ).
  exists st'. split; [done|].
  rewrite delivered_fragments, raises_fragments in Happ. simpl in Happ.
  rewrite app_nil_r in Happ.
  rewrite accumulate_eq in Heq |- *.
  rewrite !delivered_fragments, !raises_fragments in *. simpl in *.
  rewrite app_nil_r in *. cbv zeta in *.
  split; [done|]. injection Heq as <-.
  split; [by destruct (existsb truthy chunks)|].
  by destruct (existsb truthy chunks).
Qed.

(** * Properties of the localStorage helpers *)

Lemma startsWith_blob_transient v :
  startsWith_blob v = true ↔ transient v.
Proof.
  unfold transient. split.
  - destruct v as [| |s]; simpl; try discriminate.
    destruct s as [|c1 [|c2 [|c3 [|c4 [|c5 s]]]]]; simpl; try discriminate;
      repeat (case_match; try discriminate).
    intros _. subst. by exists s.
  - intros [id ->]. simpl. by destruct id.
Qed.

Lemma storable_blanked msg : blanked msg (storable msg).
Proof.
  unfold blanked, storable.
  destruct (startsWith_blob (imageUrl msg)) eqn:Hb; simpl.
  - repeat split. left. split; [|done]. by apply startsWith_blob_transient.
  - repeat split. right. split; [|done].
    intros Ht%startsWith_blob_transient. congruence.
Qed.

(** Saving with a store that takes the write. *)
Lemma saveChatHistory_accepted uid messages b :
  denied b = false → full b = false →
  saveChatHistory uid messages b
  = (normal (),
     {| localStorage :=
          <[history_key uid := json (map storable messages)]> (localStorage b);
        denied := denied b; full := full b; console := console b |}).
Proof.
  intros Hd Hf. unfold saveChatHistory, try_catch, mbind, JS_bind,
    JSON_stringify, mret, JS_ret, setItem.
  by rewrite Hd, Hf.
Qed.

(** Loading, by what the store holds. *)
Lemma loadChatHistory_eq uid b :
  loadChatHistory uid b
  = let failed e :=
      (normal [],
       (console_error (Some "Failed to load chat history:") e b).2) in
    if denied b then failed SecurityError
    else match localStorage b !! history_key uid with
         | Some (json messages) => (normal messages, b)
         | Some (malformed raw) =>
             if String.eqb raw "" then (normal [], b) else failed SyntaxError
         | None => (normal [], b)
         end.
Proof.
  unfold loadChatHistory, try_catch, mbind, JS_bind, getItem, console_error,
    mret, JS_ret.
  cbv beta zeta.
  destruct (denied b) eqn:Hd; cbn [snd]; rewrite ?Hd; [done|].
  destruct (localStorage b !! history_key uid) as [[ms|raw]|]; simpl;
    [done| |done].
  destruct (String.eqb raw ""); simpl; by rewrite ?Hd.
Qed.

Lemma save_then_load_accepted uid messages b :
  denied b = false → full b = false →
  save_then_load uid messages b
  = (normal (map storable messages),
     {| localStorage :=
          <[history_key uid := json (map storable messages)]> (localStorage b);
        denied := denied b; full := full b; console := console b |}).
Proof.
  intros Hd Hf. unfold save_then_load, mbind, JS_bind.
  rewrite (saveChatHistory_accepted _ _ _ Hd Hf), loadChatHistory_eq.
  cbn [denied localStorage]. by rewrite Hd, lookup_insert_eq.
Qed.

(** C6. With a store that takes the write, saving a message list and then
    loading under the same account identifier returns the list with every
    transient image reference replaced by the empty string: the messages
    are the same in number and order, each with its role and text and,
    unless transient, its image reference. Nothing is logged, whatever the
    store held before. *)
Theorem save_load_round_trip (b : Browser) (uid : string)
    (messages : list ChatMessage) :
  denied b = false → full b = false →
  ∃ loaded b',
    save_then_load uid messages b = (normal loaded, b') ∧
    Forall2 blanked messages loaded ∧
    console b' = console b.
Proof.
  intros Hd Hf. rewrite (save_then_load_accepted _ _ _ Hd Hf).
  do 2 eexists. split; [done|]. split; [|done].
  induction messages as [|msg rest IH]; simpl; constructor;
    [apply storable_blanked|exact IH].
Qed.

Lemma save_load_round_trip_witness :
  ∃ b',
    save_then_load "u1"
      [ {| role := user; text := Some "look"; imageUrl := str "blob:1f" |};
        {| role := model; text := Some "a cat"; imageUrl := undefined |} ]
      {| localStorage := ∅; denied := false; full := false; console := [] |}
    = (normal
         [ {| role := user; text := Some "look"; imageUrl := str "" |};
           {| role := model; text := Some "a cat"; imageUrl := undefined |} ],
       b').
Proof.
  destruct (save_load_round_trip
              {| localStorage := ∅; denied := false; full := false;
                 console := [] |} "u1"
              [ {| role := user; text := Some "look";
                   imageUrl := str "blob:1f" |};
                {| role := model; text := Some "a cat";
                   imageUrl := undefined |} ] eq_refl eq_refl)
    as (loaded & b' & Heq & _).
  exists b'. rewrite Heq. f_equal. f_equal.
  vm_compute in Heq. by injection Heq as <- _.
Defined.

(** C7. Loading never throws: it returns the message list stored under
    the account identifier, and the empty list when there is no entry,
    when the stored text does not parse, or when the store cannot be
    read; the store is left as it was. Saving never throws either,
    whether the store takes the write or not, and when it does not the
    store is left as it was and the failure is logged. *)
Theorem persistence_never_throws (b : Browser) (uid : string) :
  (∃ loaded b',
     loadChatHistory uid b = (normal loaded, b') ∧
     localStorage b' = localStorage b ∧
     (denied b = false →
      ∀ messages, localStorage b !! history_key uid = Some (json messages) →
                  loaded = messages) ∧
     (localStorage b !! history_key uid = None → loaded = []) ∧
     (∀ raw, localStorage b !! history_key uid = Some (malformed raw) →
             loaded = []) ∧
     (denied b = true → loaded = [])) ∧
  (∀ messages,
     ∃ b',
       saveChatHistory uid messages b = (normal (), b') ∧
       (denied b = true ∨ full b = true →
        localStorage b' = localStorage b ∧
        ∃ e, console b' =
             console b ++ [ {| label := Some "Failed to save chat history:";
                               logged := e |} ])).
Proof.
  split.
  - rewrite loadChatHistory_eq. destruct (denied b) eqn:Hd.
    + do 2 eexists. split; [done|]. repeat split; try done.
    + destruct (localStorage b !! history_key uid) as [[ms|raw]|] eqn:Hk.
      * do 2 eexists. split; [done|]. repeat split; try done.
        by intros _ ? [= ->].
      * destruct (String.eqb raw "");
          (do 2 eexists; split; [done|]; repeat split; done).
      * do 2 eexists. split; [done|]. repeat split; done.
  - intros messages.
    unfold saveChatHistory, try_catch, mbind, JS_bind, JSON_stringify, mret,
      JS_ret, setItem, console_error.
    destruct (denied b) eqn:Hd; [|destruct (full b) eqn:Hf].
    + eexists. split; [done|]. intros _. split; [done|]. by eexists.
    + eexists. split; [done|]. intros _. split; [done|]. by eexists.
    + eexists. split; [done|]. by intros [|].
Qed.

Lemma persistence_never_throws_witness :
  ∃ b',
    loadChatHistory "u1"
      {| localStorage := {[ history_key "u1" := malformed "[{" ]};
         denied := false; full := false; console := [] |}
    = (normal [], b').
Proof.
  destruct (persistence_never_throws
              {| localStorage := {[ history_key "u1" := malformed "[{" ]};
                 denied := false; full := false; console := [] |} "u1")
    as [(loaded & b' & Heq & _ & _ & _ & Hmal & _) _].
  exists b'. rewrite Heq. f_equal. f_equal.
  apply (Hmal "[{"). apply lookup_singleton_eq.
Defined.

(** * Properties of the submit handler *)

Lemma trimStart_whitespace_only s :
  whitespace_only s = true → trimStart s = "".
Proof.
  induction s as [|c s IH]; simpl; [done|].
  destruct (is_white_space c); simpl; [exact IH|discriminate].
Qed.

Lemma trimEnd_keeps_first c s :
  is_white_space c = false → trimEnd (String c s) ≠ "".
Proof. intros Hc. simpl. rewrite Hc. by destruct (trimEnd s). Qed.

Lemma trimStart_empty s : trimStart s = "" → whitespace_only s = true.
Proof.
  induction s as [|c s IH]; simpl; [done|].
  destruct (is_white_space c); simpl; [exact IH|discriminate].
Qed.

Lemma trimStart_head s c rest :
  trimStart s = String c rest → is_white_space c = false.
Proof.
  induction s as [|d s IH]; simpl; [discriminate|].
  destruct (is_white_space d) eqn:Hd; [exact IH|]. by intros [= <- _].
Qed.

(** [!input.trim()] holds exactly of the strings of white space. *)
Lemma trim_empty_iff s :
  nonempty (trim s) = false ↔ whitespace_only s = true.
Proof.
  unfold nonempty, trim. rewrite negb_false_iff, String.eqb_eq. split.
  - intros Ht. apply trimStart_empty.
    destruct (trimStart s) as [|c rest] eqn:Hs; [done|].
    by destruct (trimEnd_keeps_first c rest (trimStart_head _ _ _ Hs)).
  - intros Hw. by rewrite (trimStart_whitespace_only _ Hw).
Qed.

(** C10. A submit with an input that is empty or all white space and
    with no image selected changes nothing: the component returns to the
    state it was in, so the message list and the store are as they were,
    no message is appended, no request is sent and no activation is
    started. *)
Theorem empty_submit_is_noop (st : ChatState) :
  whitespace_only (input st) = true → image st = None →
  handleSubmit st = st ∧
  step Submit st = Some st ∧
  messages (handleSubmit st) = messages st ∧
  heap (handleSubmit st) = heap st ∧
  requests (handleSubmit st) = requests st ∧
  pending (handleSubmit st) = pending st.
Proof.
  intros Hw%trim_empty_iff Hi.
  assert (Heq : handleSubmit st = st).
  { unfold handleSubmit, submit_refused. by rewrite Hw, Hi. }
  simpl. by rewrite Heq.
Qed.

Lemma empty_submit_is_noop_witness :
  handleSubmit (setInput "  " (mount [initialWelcomeMessage] [0]))
  = setInput "  " (mount [initialWelcomeMessage] [0]).
Proof.
  refine (proj1 (empty_submit_is_noop
                   (setInput "  " (mount [initialWelcomeMessage] [0])) _ _));
    reflexivity.
Defined.

(** ** The guard against a second submit *)

Lemma on_chunk_guarded c v st v' st' :
  on_chunk c v st = Some (v', st') →
  pending st' = pending st ∧ isLoading st' = isLoading st.
Proof.
  unfold on_chunk, replace_last_text.
  destruct (truthy c); [|by intros [= <- <-]].
  destruct (firstChunk v); [by intros [= <- <-]|].
  destruct (last (messages st)); simpl; [|discriminate].
  by intros [= <- <-].
Qed.

Lemma guarded_singleton st i inv :
  guarded st → pending st !! i = Some inv →
  isLoading st = true ∧ pending st = [inv] ∧ i = 0.
Proof.
  intros [Hnil|[Hl Hlen]] Hi; [by rewrite Hnil in Hi|].
  destruct (pending st) as [|inv0 [|??]]; simplify_eq/=.
  destruct i; simplify_eq/=; done.
Qed.

Lemma resume_guarded i run st st' :
  guarded st →
  (∀ inv next st1, run inv st = Some (next, st1) →
     pending st1 = pending st ∧
     (isLoading st1 = isLoading st ∨ next = None)) →
  resume i run st = Some st' → guarded st'.
Proof.
  intros Hg Hrun. unfold resume.
  destruct (pending st !! i) as [inv|] eqn:Hi; simpl; [|discriminate].
  destruct (run inv st) as [[next st1]|] eqn:Hr; simpl; [|discriminate].
  intros [= <-].
  destruct (guarded_singleton _ _ _ Hg Hi) as (Hl & Hp & ->).
  destruct (Hrun _ _ _ Hr) as [Hp1 Hl1]. unfold guarded. simpl.
  rewrite Hp1, Hp. destruct next as [inv'|]; simpl.
  - right. destruct Hl1 as [Hl1|]; [|done]. by rewrite Hl1.
  - by left.
Qed.

Lemma step_guarded ev st st' :
  guarded st → step ev st = Some st' → guarded st'.
Proof.
  intros Hg. destruct ev; simpl;
    try (intros [= <-]; exact Hg);
    try (apply resume_guarded; [exact Hg|];
         intros inv next st1; destruct (phase inv); try discriminate).
  - (* FileChange *)
    intros [= <-]. unfold handleFileChange.
    destruct file as [f|]; [destruct (String.prefix _ _)|]; exact Hg.
  - (* Submit *)
    intros [= <-]. unfold handleSubmit.
    destruct (submit_refused st) eqn:Href; [exact Hg|].
    unfold submit_refused in Href. apply orb_false_iff in Href as [_ Hl].
    assert (Hp : pending st = []).
    { destruct Hg as [|[Hl' _]]; [done|congruence]. }
    unfold guarded.
    destruct (geminiChat st); [destruct (image st)|]; simpl; rewrite Hp;
      simpl; auto.
  - (* FileRead *)
    intros [= Heq]. unfold on_file_read in Heq.
    destruct (currentImage inv), (geminiChat st); injection Heq as <- <-;
      simpl; auto.
  - intros [= <- <-]. simpl. auto.
  - intros [= <- <-]. auto.
  - intros [= <- <-]. simpl. auto.
  - (* Chunk *)
    destruct (on_chunk chunkText v st) as [[v' st2]|] eqn:Hc; simpl;
      [|discriminate].
    intros [= <- <-]. destruct (on_chunk_guarded _ _ _ _ _ Hc). auto.
  - intros [= <- <-]. unfold on_done.
    destruct (firstChunk v); simpl; auto.
  - intros [= <- <-]. simpl. auto.
Qed.

Lemma reachable_guarded st : reachable st → guarded st.
Proof.
  induction 1 as [h ms|st ev st' _ IH Hstep]; [by left|].
  by apply (step_guarded ev st).
Qed.

(** Within one mount the guard does its work: while an activation of the
    mounted component is suspended, [isLoading] is set, the activation is
    the only one and [handleSubmit] returns at line 235. *)
Lemma in_flight_refused st :
  reachable st → in_flight st →
  isLoading st = true ∧ length (pending st) = 1 ∧
  submit_refused st = true ∧ handleSubmit st = st.
Proof.
  intros Hr Hf. destruct (reachable_guarded _ Hr) as [Hnil|[Hl Hlen]]; [done|].
  assert (Href : submit_refused st = true).
  { unfold submit_refused. rewrite Hl. apply orb_true_r. }
  repeat split; try done. unfold handleSubmit. by rewrite Href.
Qed.

(** C9. While a stream from a prior submit is in flight, a second submit
    is not guarded against: there is a state of the page with a response
    stream in flight in which a submit appends a new user message and
    starts another request. The guard of [handleSubmit] reads [isLoading],
    which is state of one chat component, and an activation of
    [handleSubmit] outlives its component. The user "u1" signs in, submits
    "hi" and the response starts to stream ("Hel"); "u1" signs out and
    "u2", an account with no stored history, signs in, so [App] mounts a
    new chat component, with [isLoading] false, while the first
    activation is still suspended in the loop over its stream. In that
    state the send button is enabled and the guard is open: a submit of
    "again" appends the message of the user at the end of the list, sends the text on the session of the
    new component and leaves a second activation suspended beside the
    first, whose next fragment is still taken. *)
Theorem second_submit_while_streaming :
  ∃ (pg pg' : Page.State) (session : Genai.Chat),
    Page.run
      [ Page.SignedIn "u1" [];
        Page.Component (InputChange "hi");
        Page.Component Submit;
        Page.Component (StreamOpened 0);
        Page.Component (Chunk 0 (Some "Hel"));
        Page.SignedOut;
        Page.SignedIn "u2" [];
        Page.Component (InputChange "again") ]
      Page.initial = Some pg ∧
    Page.user pg = Some "u2" ∧
    map Page.suspended (Page.orphans pg)
    = [ {| currentInput := "hi"; currentImage := None;
           phase := streaming {| modelResponse := "Hel";
                                 firstChunk := false |} |} ] ∧
    Page.streaming_in_flight pg ∧
    isLoading (Page.chat pg) = false ∧
    submit_disabled (Page.chat pg) = false ∧
    submit_refused (Page.chat pg) = false ∧
    geminiChat (Page.chat pg) = Some session ∧
    Page.step (Page.Component Submit) pg = Some pg' ∧
    Page.orphans pg' = Page.orphans pg ∧
    appended (Page.chat pg) [user_message "again" None] (Page.chat pg') ∧
    requests (Page.chat pg')
    = requests (Page.chat pg) ++ [(session, [text_part "again"])] ∧
    pending (Page.chat pg')
    = [ {| currentInput := "again"; currentImage := None;
           phase := opening |} ] ∧
    is_Some (Page.step (Page.Orphaned (Chunk 0 (Some "lo"))) pg').
Proof.
  eexists _, _, _.
  split; [vm_compute; reflexivity|].
  split; [reflexivity|].
  split; [reflexivity|].
  split.
  { eexists _, _. split; [|right; apply list_elem_of_singleton; reflexivity].
    reflexivity. }
  split; [reflexivity|].
  split; [vm_compute; reflexivity|].
  split; [vm_compute; reflexivity|].
  split; [reflexivity|].
  split; [vm_compute; reflexivity|].
  split; [reflexivity|].
  split; [split; vm_compute; reflexivity|].
  split; [vm_compute; reflexivity|].
  split; [vm_compute; reflexivity|].
  vm_compute. eexists. reflexivity.
Qed.

(** * The invariant of the data model *)

Lemma Forall_contents (P : ChatMessage → Prop) h ms :
  Forall P (contents h ms) ↔
  ∀ l msg, l ∈ ms → h !! l = Some msg → P msg.
Proof.
  unfold contents. rewrite Forall_forall. split.
  - intros H l msg Hl Hmsg. apply H, list_elem_of_omap. eauto.
  - intros H msg (l & Hl & Hmsg)%list_elem_of_omap. eauto.
Qed.

Lemma content_append msg st :
  has_content msg = true → content_invariant st →
  content_invariant (append msg st).
Proof.
  unfold content_invariant, append. cbn [heap messages setMessages].
  rewrite !Forall_contents. intros Hmsg Hst l m Hl Hm.
  destruct (decide (l < length (heap st))) as [Hlt|Hge].
  - rewrite lookup_app_l in Hm by done.
    apply (Hst l m); [|done].
    apply elem_of_app in Hl as [|Hl%list_elem_of_singleton]; [done|lia].
  - rewrite lookup_app_r in Hm by lia.
    destruct (l - length (heap st)) as [|n]; simplify_eq/=; done.
Qed.

Lemma content_replace_last_text t st st' :
  nonempty t = true → replace_last_text t st = Some st' →
  content_invariant st → content_invariant st'.
Proof.
  unfold replace_last_text, content_invariant. intros Ht.
  destruct (last (messages st)) as [l0|]; [|discriminate].
  intros [= <-]. cbn [heap messages setMessages].
  rewrite !Forall_contents. intros Hst l m Hl Hm.
  rewrite list_lookup_alter in Hm.
  destruct (decide (l0 = l)) as [->|]; [|by apply (Hst l m)].
  destruct (heap st !! l); simplify_eq/=.
  unfold has_content. simpl. unfold nonempty in Ht. by rewrite Ht.
Qed.

Lemma nonempty_app_truthy mr c :
  truthy c = true → nonempty (mr +:+ default "" c) = true.
Proof. destruct c as [[|a s]|]; try discriminate. by destruct mr. Qed.

Lemma concat_fragments_nonempty chunks :
  existsb truthy chunks = true → nonempty (concat_fragments chunks) = true.
Proof.
  induction chunks as [|c chunks IH]; simpl; [discriminate|].
  destruct (truthy c) eqn:Hc; simpl.
  - intros _. by destruct c as [[|a s]|].
  - rewrite (falsy_default _ Hc). exact IH.
Qed.

Lemma has_content_model_message t :
  nonempty t = true → has_content (model_message t) = true.
Proof. unfold has_content, nonempty. simpl. by intros ->. Qed.

Lemma content_on_chunk c v st v' st' :
  on_chunk c v st = Some (v', st') →
  content_invariant st → content_invariant st'.
Proof.
  unfold on_chunk. destruct (truthy c) eqn:Hc; [|by intros [= <- <-]].
  pose proof (nonempty_app_truthy (modelResponse v) c Hc) as Hne.
  destruct (firstChunk v).
  - intros [= <- <-]. by apply content_append, has_content_model_message.
  - destruct (replace_last_text _ st) as [st1|] eqn:Hr; simpl;
      [|discriminate].
    intros [= <- <-]. by apply (content_replace_last_text _ _ _ Hne Hr).
Qed.

Lemma content_on_throw e st :
  content_invariant st → content_invariant (on_throw e st).
Proof. intros H. by apply (content_append apology_message (log_error e st)). Qed.

Lemma content_on_done v st :
  content_invariant st → content_invariant (on_done v st).
Proof.
  intros H. unfold on_done. destruct (firstChunk v); [|done].
  by apply (content_append fallback_message st).
Qed.

(** The message of the user holds the input, or else the preview of the
    image. *)
Lemma content_handleSubmit st :
  coupled st → content_invariant st → content_invariant (handleSubmit st).
Proof.
  intros Hc Hst. unfold handleSubmit.
  destruct (submit_refused st) eqn:Href; [done|].
  set (userMessage := {| role := user; text := Some (input st);
                         imageUrl := _ |}).
  assert (Hu : has_content userMessage = true).
  { unfold submit_refused in Href. apply orb_false_iff in Href as [Href _].
    unfold has_content. simpl.
    destruct (nonempty (trim (input st))) eqn:Hin.
    - destruct (input st); [done|]. done.
    - simpl in Href. unfold coupled in Hc.
      destruct (image st); [|done]. destruct Hc as [id ->].
      by rewrite orb_true_r. }
  pose proof (content_append _ _ Hu Hst) as Happ.
  destruct (geminiChat st); [destruct (image st)|]; try exact Happ.
  apply content_on_throw. exact Happ.
Qed.

Lemma on_chunk_coupled c v st v' st' :
  on_chunk c v st = Some (v', st') → coupled st → coupled st'.
Proof.
  unfold on_chunk, replace_last_text.
  destruct (truthy c); [|by intros [= <- <-]].
  destruct (firstChunk v); [by intros [= <- <-]|].
  destruct (last (messages st)); simpl; [|discriminate].
  by intros [= <- <-].
Qed.

Lemma resume_invariant (I : ChatState → Prop) i run st st' :
  (∀ invs st1, I st1 → I (setPending invs st1)) →
  (∀ inv next st1, run inv st = Some (next, st1) → I st1) →
  resume i run st = Some st' → I st'.
Proof.
  intros Hset Hrun. unfold resume.
  destruct (pending st !! i) as [inv|]; simpl; [|discriminate].
  destruct (run inv st) as [[next st1]|] eqn:Hr; simpl; [|discriminate].
  intros [= <-]. apply Hset. by apply (Hrun inv next).
Qed.

Lemma step_content ev st st' :
  coupled st → content_invariant st → step ev st = Some st' →
  content_invariant st' ∧ coupled st'.
Proof.
  intros Hc Hst.
  destruct ev; simpl;
    try (intros [= <-]; by split);
    try (apply (resume_invariant (λ s, content_invariant s ∧ coupled s));
         [done|]; intros inv next st1; destruct (phase inv);
         try discriminate).
  - (* FileChange *)
    intros [= <-]. split; [by destruct file as [f|];
      [unfold handleFileChange; destruct (String.prefix _ _)|]|].
    unfold handleFileChange, coupled.
    destruct file as [f|]; [destruct (String.prefix _ _)|]; simpl; eauto.
  - (* NewChat *)
    intros [= <-]. split; [|done].
    unfold content_invariant, handleNewChat. cbn [heap messages setMessages].
    apply Forall_contents. intros l m ->%list_elem_of_singleton.
    rewrite lookup_app_r, Nat.sub_diag by lia. by intros [= <-].
  - (* Submit *)
    intros [= <-]. split; [by apply content_handleSubmit|].
    unfold handleSubmit, coupled.
    destruct (submit_refused st); [done|].
    by destruct (geminiChat st); [destruct (image st)|].
  - (* FileRead *)
    intros [= Heq]. unfold on_file_read in Heq.
    destruct (currentImage inv), (geminiChat st); injection Heq as <- <-;
      split; try done; by apply content_on_throw.
  - intros [= <- <-]. split; [by apply content_on_throw|done].
  - by intros [= <- <-].
  - intros [= <- <-]. split; [by apply content_on_throw|done].
  - (* Chunk *)
    destruct (on_chunk chunkText v st) as [[v' st2]|] eqn:Hch; simpl;
      [|discriminate].
    intros [= <- <-]. split;
      [by apply (content_on_chunk _ _ _ _ _ Hch)
      |by apply (on_chunk_coupled _ _ _ _ _ Hch)].
  - intros [= <- <-]. split; [by apply content_on_done|].
    unfold on_done. by destruct (firstChunk v).
  - intros [= <- <-]. split; [by apply content_on_throw|done].
Qed.

(** In every state of the mounted component the image and its preview
    are set together. *)
Lemma reachable_coupled st : reachable st → coupled st.
Proof.
  induction 1 as [h ms|st ev st' _ IH Hstep]; [exact I|].
  destruct ev; simpl in Hstep;
    try (injection Hstep as <-; first [exact IH|exact I]);
    try (revert Hstep; apply (resume_invariant coupled); [done|];
         intros inv next st1; destruct (phase inv); try discriminate).
  - injection Hstep as <-. unfold handleFileChange, coupled.
    destruct file as [f|]; [destruct (String.prefix _ _)|]; simpl; eauto.
  - injection Hstep as <-. unfold handleSubmit, coupled.
    destruct (submit_refused st); [done|].
    by destruct (geminiChat st); [destruct (image st)|].
  - intros [= Heq]. unfold on_file_read in Heq.
    by destruct (currentImage inv), (geminiChat st); injection Heq as <- <-.
  - by intros [= <- <-].
  - by intros [= <- <-].
  - by intros [= <- <-].
  - destruct (on_chunk chunkText v st) as [[v' st2]|] eqn:Hch; simpl;
      [|discriminate].
    intros [= <- <-]. by apply (on_chunk_coupled _ _ _ _ _ Hch).
  - intros [= <- <-]. unfold on_done. by destruct (firstChunk v).
  - by intros [= <- <-].
Qed.

Lemma accumulate_content stream st st' :
  content_invariant st → accumulate stream st = Some st' →
  content_invariant st'.
Proof.
  intros Hst. rewrite accumulate_eq. intros [= <-]. cbv zeta.
  destruct (existsb truthy (delivered stream)) eqn:Hex.
  - pose proof (content_append _ st
      (has_content_model_message _ (concat_fragments_nonempty _ Hex)) Hst)
      as Hp.
    destruct (raises stream); [|exact Hp].
    by apply (content_append apology_message (log_error Rejected _)).
  - destruct (raises stream).
    + by apply (content_append apology_message (log_error Rejected st)).
    + by apply (content_append fallback_message st).
Qed.

Lemma storable_content msg :
  has_content msg = true →
  (¬ image_only_transient msg ∧ has_content (storable msg) = true) ∨
  (image_only_transient msg ∧ has_content (storable msg) = false ∧
   storable msg = {| role := role msg; text := text msg;
                     imageUrl := str "" |}).
Proof.
  intros Hmsg. unfold storable, image_only_transient.
  destruct (startsWith_blob (imageUrl msg)) eqn:Hb.
  - apply startsWith_blob_transient in Hb.
    destruct (truthy (text msg)) eqn:Ht.
    + left. split; [by intros [? _]|]. unfold has_content. simpl.
      by rewrite Ht.
    + right. split; [done|]. split; [|done]. unfold has_content. simpl.
      by rewrite Ht.
  - left. split; [|done]. intros [_ Htr%startsWith_blob_transient].
    congruence.
Qed.

(** C8, amended. In a component whose image and preview are set together
    (as they are in every state the mounted component reaches,
    [reachable_coupled]), if every message of the list holds a non-empty
    text or a non-empty image reference, so it is after every step of the
    component (a user submit, a chunk, the end or the failure of a stream,
    and the other events) and after a whole run of the stream accumulator.
    Saving the list and loading it keeps this for every message except one
    that shows an image only, by a transient reference: that one comes
    back with its image reference empty, holding neither. *)
Theorem content_invariant_preserved (st : ChatState) :
  coupled st → content_invariant st →
  (∀ ev st', step ev st = Some st' → content_invariant st' ∧ coupled st') ∧
  (∀ stream st', accumulate stream st = Some st' → content_invariant st') ∧
  (∀ uid b, denied b = false → full b = false →
     ∃ loaded b',
       save_then_load uid (contents (heap st) (messages st)) b
       = (normal loaded, b') ∧
       Forall2
         (λ msg msg',
            (¬ image_only_transient msg ∧ has_content msg' = true) ∨
            (image_only_transient msg ∧ has_content msg' = false ∧
             msg' = {| role := role msg; text := text msg;
                       imageUrl := str "" |}))
         (contents (heap st) (messages st)) loaded).
Proof.
  intros Hc Hst. split; [|split].
  - intros ev st'. by apply step_content.
  - intros stream st'. by apply accumulate_content.
  - intros uid b Hd Hf. rewrite (save_then_load_accepted _ _ _ Hd Hf).
    do 2 eexists. split; [done|].
    unfold content_invariant in Hst.
    induction Hst as [|msg rest Hmsg _ IH]; simpl; constructor; [|exact IH].
    by apply storable_content.
Qed.

Lemma content_invariant_preserved_witness :
  ∃ st',
    step Submit
      (handleFileChange (Some {| name := "cat.png"; type := "image/png" |})
                        "7c" (mount [initialWelcomeMessage] [0]))
    = Some st' ∧
    content_invariant st'.
Proof.
  eexists. split; [reflexivity|].
  refine (proj1 (proj1 (content_invariant_preserved
                          (handleFileChange
                             (Some {| name := "cat.png";
                                      type := "image/png" |})
                             "7c" (mount [initialWelcomeMessage] [0]))
                          _ _) Submit _ eq_refl)).
  - exists "7c". reflexivity.
  - repeat constructor.
Defined.

(** C8 as stated fails at saving and loading. A user selects an image and
    submits with no text: the message holds the preview, and the list
    satisfies the invariant. Saved and loaded, the message has an empty
    text and an empty image reference. *)
Lemma image_only_message_loses_content :
  ∃ st loaded b',
    step (FileChange (Some {| name := "cat.png"; type := "image/png" |})
                     "7c") (mount [] []) ≫= step Submit = Some st ∧
    contents (heap st) (messages st)
    = [ {| role := user; text := Some ""; imageUrl := str "blob:7c" |} ] ∧
    content_invariant st ∧
    save_then_load "u1" (contents (heap st) (messages st))
      {| localStorage := ∅; denied := false; full := false; console := [] |}
    = (normal loaded, b') ∧
    loaded = [ {| role := user; text := Some ""; imageUrl := str "" |} ] ∧
    ¬ Forall (λ msg, has_content msg = true) loaded.
Proof.
  eexists _, _, _. split; [reflexivity|]. split; [reflexivity|].
  split; [repeat constructor|]. split; [reflexivity|]. split; [reflexivity|].
  by intros [Hf _]%Forall_cons.
Qed.

(** * More properties of the chat component *)

Lemma submit_disabled_refused st : submit_disabled st = submit_refused st.
Proof. unfold submit_disabled, submit_refused. apply orb_comm. Qed.

Lemma handleSubmit_accepted_length st :
  submit_refused st = false →
  length (messages st) < length (messages (handleSubmit st)).
Proof.
  intros Href. unfold handleSubmit. rewrite Href.
  destruct (geminiChat st); [destruct (image st)|]; simpl;
    rewrite ?length_app; simpl; lia.
Qed.

(** X1. The send button is disabled exactly when a submit would do
    nothing: [handleSubmit] leaves the component as it is if and only if
    the condition of the button's [disabled] holds. *)
Theorem send_button_matches_guard (st : ChatState) :
  handleSubmit st = st ↔ submit_disabled st = true.
Proof.
  rewrite submit_disabled_refused. split.
  - intros Heq. destruct (submit_refused st) eqn:Href; [done|].
    pose proof (handleSubmit_accepted_length _ Href) as Hlt.
    rewrite Heq in Hlt. lia.
  - intros Href. unfold handleSubmit. by rewrite Href.
Qed.

(** ** What the handlers keep true *)

Lemma messageParts_ok inline t :
  is_Some inline ∨ nonempty (trim t) = true →
  parts_ok (messageParts inline t).
Proof.
  unfold messageParts, parts_ok, text_part, image_part.
  intros H. destruct inline as [b|], (nonempty (trim t)) eqn:Ht; simpl.
  - right. right. by exists b, t.
  - right. left. by exists b.
  - left. by exists t.
  - destruct H as [[? [=]]|[=]].
Qed.

Lemma on_chunk_well_run c v st v' st' :
  on_chunk c v st = Some (v', st') →
  session_current st' ∧
  (messages st ≠ [] → messages st' ≠ []) ∧
  pending st' = pending st ∧ requests st' = requests st ∧
  errors st' = errors st ∨ st' = st.
Proof.
  unfold on_chunk, replace_last_text.
  destruct (truthy c); [|intros [= <- <-]; by right].
  destruct (firstChunk v).
  - intros [= <- <-]. left. repeat split. simpl. by destruct (messages st).
  - destruct (last (messages st)); simpl; [|discriminate].
    intros [= <- <-]. left. by repeat split.
Qed.

Lemma well_run_setPending invs st :
  well_run st →
  (invs ≠ [] → messages st ≠ []) →
  Forall (λ inv, phase inv = reading → is_Some (currentImage inv)) invs →
  well_run (setPending invs st).
Proof. intros (Hs & _ & _ & Hq & He) Hm Hr. by repeat split. Qed.

Lemma resume_well_run i run st st' :
  well_run st →
  (∀ inv next st1,
     pending st !! i = Some inv → run inv st = Some (next, st1) →
     session_current st1 ∧ (messages st ≠ [] → messages st1 ≠ []) ∧
     pending st1 = pending st ∧
     (∀ inv', next = Some inv' → phase inv' ≠ reading) ∧
     Forall (λ request, parts_ok request.2) (requests st1) ∧
     Forall (λ e, e = Rejected) (errors st1)) →
  resume i run st = Some st' → well_run st'.
Proof.
  intros (Hs & Hm & Hr & Hq & He) Hrun. unfold resume.
  destruct (pending st !! i) as [inv|] eqn:Hi; simpl; [|discriminate].
  destruct (run inv st) as [[next st1]|] eqn:Hrn; simpl; [|discriminate].
  intros [= <-].
  destruct (Hrun _ _ _ eq_refl Hrn) as (Hs1 & Hm1 & Hp1 & Hn & Hq1 & He1).
  assert (Hne : messages st1 ≠ []).
  { apply Hm1, Hm. intros Hnil. by rewrite Hnil in Hi. }
  repeat split; simpl; try done.
  rewrite Hp1. destruct next as [inv'|].
  - apply Forall_insert; [done|]. intros Hph. by destruct (Hn inv' eq_refl).
  - by apply Forall_delete.
Qed.

Ltac well_run_goals st :=
  split; [|split; [|split; [|split; [|split]]]];
  try first
    [ done
    | by intros ? [= <-]
    | intros _; simpl; by destruct (messages st)
    | simpl; apply Forall_app; split; [done|]; by repeat constructor ].

Lemma step_well_run ev st st' :
  well_run st → step ev st = Some st' → well_run st'.
Proof.
  intros Hw. pose proof Hw as (Hs & Hm & Hr & Hq & He).
  destruct ev; simpl;
    try (intros [= <-]; exact Hw);
    try (apply resume_well_run; [exact Hw|];
         intros inv next st1 Hi; destruct (phase inv) eqn:Hph;
         try discriminate).
  - (* FileChange *)
    intros [= <-]. unfold handleFileChange.
    destruct file as [f|]; [destruct (String.prefix _ _)|]; exact Hw.
  - (* NewChat *)
    intros [= <-]. by repeat split.
  - (* Submit *)
    intros [= <-]. unfold handleSubmit.
    destruct (submit_refused st) eqn:Href; [exact Hw|].
    unfold session_current in Hs. rewrite Hs.
    unfold submit_refused in Href. apply orb_false_iff in Href as [Href _].
    destruct (image st) as [f|] eqn:Himg.
    + apply well_run_setPending.
      * repeat split; try done. simpl. by destruct (messages st).
      * intros _. simpl. by destruct (messages st).
      * simpl. apply Forall_app. split; [done|].
        constructor; [|done]. simpl. by eexists.
    + apply well_run_setPending.
      * repeat split; try done.
        -- simpl. by destruct (messages st).
        -- simpl. apply Forall_app. split; [done|]. constructor; [|done].
           simpl. apply messageParts_ok. right.
           simpl in Href. by rewrite andb_true_r, negb_false_iff in Href.
      * intros _. simpl. by destruct (messages st).
      * simpl. apply Forall_app. split; [done|]. by constructor.
  - (* FileRead *)
    intros [= Heq]. unfold on_file_read in Heq.
    rewrite Forall_lookup in Hr. destruct (Hr _ _ Hi Hph) as [f Hf].
    unfold session_current in Hs. rewrite Hf, Hs in Heq.
    injection Heq as <- <-. well_run_goals st.
    simpl. apply Forall_app. split; [done|]. constructor; [|done].
    simpl. apply messageParts_ok. left. by eexists.
  - (* FileReadFailed *)
    intros [= <- <-]. well_run_goals st.
  - (* StreamOpened *)
    intros [= <- <-]. well_run_goals st.
  - (* StreamRejected *)
    intros [= <- <-]. well_run_goals st.
  - (* Chunk *)
    destruct (on_chunk chunkText v st) as [[v' st2]|] eqn:Hc; simpl;
      [|discriminate].
    intros [= <- <-].
    destruct (on_chunk_well_run _ _ _ _ _ Hc)
      as [(Hs2 & Hm2 & Hp2 & Hq2 & He2)| ->].
    + rewrite Hq2, He2. well_run_goals st.
    + well_run_goals st.
  - (* StreamEnded *)
    intros [= <- <-]. unfold on_done. destruct (firstChunk v);
      well_run_goals st.
  - (* StreamThrew *)
    intros [= <- <-]. well_run_goals st.
Qed.

Lemma reachable_well_run st : reachable st → well_run st.
Proof.
  induction 1 as [h ms|st ev st' _ IH Hstep].
  - by repeat split.
  - by apply (step_well_run ev st).
Qed.

Lemma run_reachable events st st' :
  reachable st → run events st = Some st' → reachable st'.
Proof.
  revert st. induction events as [|ev events IH]; intros st Hr; simpl.
  - by intros [= <-].
  - destruct (step ev st) as [st1|] eqn:Hs; simpl; [|discriminate].
    apply IH. by apply (reachable_step st ev).
Qed.

(** X2. In a mounted component a request to the service is never empty
    and never carries a blank text: its parts are a text that is not
    blank, or an image, or an image followed by such a text. *)
Theorem requests_never_empty (st : ChatState) :
  reachable st →
  Forall (λ request,
            request.2 ≠ [] ∧ length request.2 ≤ 2 ∧ parts_ok request.2)
         (requests st).
Proof.
  intros (_ & _ & _ & Hq & _)%reachable_well_run.
  eapply Forall_impl; [exact Hq|]. intros [chat parts] Hok. simpl in *.
  split; [|split; [|done]];
    destruct Hok as [(t & _ & ->)|[(b & ->)|(b & t & _ & ->)]];
    simpl; (done || lia).
Qed.

Lemma requests_never_empty_witness :
  ∃ st,
    run [InputChange "hi"; Submit] (mount [initialWelcomeMessage] [0])
    = Some st ∧
    Forall (λ request,
              request.2 ≠ [] ∧ length request.2 ≤ 2 ∧ parts_ok request.2)
           (requests st).
Proof.
  eexists. split; [vm_compute; reflexivity|].
  apply requests_never_empty.
  apply (run_reachable [InputChange "hi"; Submit]
           (mount [initialWelcomeMessage] [0]) _ (reachable_mount _ _)).
  vm_compute. reflexivity.
Defined.

(** X3. In a mounted component the session ref always holds the session
    made of the current messages, so neither "Chat not initialized" nor
    the [TypeError] of a missing session is ever raised: every error the
    component logs is a rejected file read, request or stream. *)
Theorem only_rejections_logged (st : ChatState) :
  reachable st →
  geminiChat st
  = Some (createChat (Some (history (contents (heap st) (messages st))))) ∧
  Forall (λ e, e = Rejected) (errors st).
Proof. by intros (Hs & _ & _ & _ & He)%reachable_well_run. Qed.

Lemma only_rejections_logged_witness :
  ∃ st,
    run [InputChange "hi"; Submit; StreamRejected 0]
        (mount [initialWelcomeMessage] [0]) = Some st ∧
    Forall (λ e, e = Rejected) (errors st).
Proof.
  eexists. split; [vm_compute; reflexivity|].
  apply only_rejections_logged.
  apply (run_reachable [InputChange "hi"; Submit; StreamRejected 0]
           (mount [initialWelcomeMessage] [0]) _ (reachable_mount _ _)).
  vm_compute. reflexivity.
Defined.

(** X4. A mounted component never stops on an event that can happen: in
    particular a chunk always finds a last message to assign to, so the
    updater of the streaming loop never fails on an empty list. *)
Theorem enabled_events_are_handled (ev : Event) (st : ChatState) :
  reachable st → enabled ev st → is_Some (step ev st).
Proof.
  intros (_ & Hm & _)%reachable_well_run. unfold enabled.
  destruct ev; simpl; try done;
    intros (inv & Hi & Hph); unfold resume; rewrite Hi; simpl;
    destruct (phase inv) eqn:Hp; try discriminate; simpl; try done.
  - by destruct (on_file_read base64Data inv st).
  - unfold on_chunk, replace_last_text.
    destruct (truthy chunkText); [|done]. destruct (firstChunk v); [done|].
    destruct (last (messages st)) eqn:Hl; [done|].
    apply last_None in Hl. destruct Hm; [|done].
    intros Hnil. by rewrite Hnil in Hi.
Qed.

Lemma enabled_events_are_handled_witness :
  ∃ st,
    run [InputChange "hi"; Submit; StreamOpened 0; Chunk 0 (Some "a")]
        (mount [] []) = Some st ∧
    is_Some (step (Chunk 0 (Some "b")) st).
Proof.
  eexists. split; [vm_compute; reflexivity|].
  apply enabled_events_are_handled.
  - apply (run_reachable
             [InputChange "hi"; Submit; StreamOpened 0; Chunk 0 (Some "a")]
             (mount [] []) _ (reachable_mount _ _)).
    vm_compute. reflexivity.
  - eexists. split; reflexivity.
Defined.

(** ** The selected image *)

Lemma step_selection_ok ev st st' :
  selection_ok st → step ev st = Some st' → selection_ok st'.
Proof.
  intros Hsel. destruct ev; simpl;
    try (intros [= <-]; first [exact Hsel|done]);
    try (apply (resume_invariant selection_ok); [done|];
         intros inv next st1; destruct (phase inv); try discriminate).
  - intros [= <-]. unfold handleFileChange, selection_ok.
    destruct file as [f|]; [destruct (String.prefix _ _) eqn:Hp|]; simpl;
      eauto.
  - intros [= <-]. unfold handleSubmit, selection_ok.
    destruct (submit_refused st); [done|].
    by destruct (geminiChat st); [destruct (image st)|].
  - intros [= Heq]. unfold on_file_read in Heq.
    by destruct (currentImage inv), (geminiChat st); injection Heq as <- <-.
  - by intros [= <- <-].
  - by intros [= <- <-].
  - by intros [= <- <-].
  - destruct (on_chunk chunkText v st) as [[v' st2]|] eqn:Hch; simpl;
      [|discriminate].
    intros [= <- <-]. revert Hch. unfold on_chunk, replace_last_text.
    destruct (truthy chunkText); [|by intros [= <- <-]].
    destruct (firstChunk v); [by intros [= <- <-]|].
    destruct (last (messages st)); simpl; [|discriminate].
    by intros [= <- <-].
  - intros [= <- <-]. unfold on_done. by destruct (firstChunk v).
  - by intros [= <- <-].
Qed.

(** X5. In a mounted component the selected file is always an image
    (its type starts with [image/]) and is shown by an object URL; when no
    file is selected there is no preview either. A file of another type
    is never selected, and choosing one drops the image selected
    before. *)
Theorem selection_is_an_image (st : ChatState) :
  reachable st →
  match image st with
  | Some f => String.prefix "image/" (type f) = true ∧
              ∃ id, imagePreview st = Some ("blob:" +:+ id)
  | None => imagePreview st = None
  end ∧
  ∀ f id, String.prefix "image/" (type f) = false →
          image (handleFileChange (Some f) id st) = None ∧
          imagePreview (handleFileChange (Some f) id st) = None.
Proof.
  intros Hr. split.
  - induction Hr as [h ms|st ev st' _ IH Hstep]; [done|].
    by apply (step_selection_ok ev st).
  - intros f id Hf. unfold handleFileChange. by rewrite Hf.
Qed.

Lemma selection_is_an_image_witness :
  ∃ st,
    run [FileChange (Some {| name := "cat.png"; type := "image/png" |}) "7c";
         FileChange (Some {| name := "a.pdf"; type := "application/pdf" |})
                    "7d"]
        (mount [] []) = Some st ∧
    image st = None ∧ imagePreview st = None.
Proof.
  eexists. split; [vm_compute; reflexivity|].
  split; [reflexivity|].
  match goal with
  | |- imagePreview ?s = None =>
      refine (proj1 (selection_is_an_image s _))
  end.
  apply (run_reachable
           [FileChange (Some {| name := "cat.png"; type := "image/png" |})
                       "7c";
            FileChange (Some {| name := "a.pdf";
                                type := "application/pdf" |}) "7d"]
           (mount [] []) _ (reachable_mount _ _)).
  vm_compute. reflexivity.
Defined.

(** ** New chat while a response streams *)

Lemma contents_singleton h msg :
  contents (h ++ [msg]) [length h] = [msg].
Proof.
  unfold contents. simpl.
  by rewrite lookup_app_r, Nat.sub_diag by lia.
Qed.

Lemma replace_last_text_new_chat t st :
  replace_last_text t (handleNewChat st)
  = Some (setMessages (heap st ++ [assign_text t initialWelcomeMessage])
                      [length (heap st)] st).
Proof.
  unfold replace_last_text, handleNewChat. cbn [messages heap setMessages].
  change (last [length (heap st)]) with (Some (length (heap st))).
  cbv beta iota.
  replace (alter (assign_text t) (length (heap st))
                 (heap st ++ [initialWelcomeMessage]))
    with (heap st ++ [assign_text t initialWelcomeMessage]); [done|].
  rewrite alter_app_r_alt by lia. by rewrite Nat.sub_diag.
Qed.

(** X6. The new-chat button is not disabled while a response streams. If
    it is used after the first fragment has arrived, the next non-empty
    fragment is written into the greeting: the list then holds one
    message, with the text of the response so far in place of the
    greeting. *)
Theorem new_chat_mid_stream_overwrites_greeting
    (st : ChatState) (i : nat) (inv : Invocation) (mr t : string) :
  pending st !! i = Some inv →
  phase inv = streaming {| modelResponse := mr; firstChunk := false |} →
  t ≠ "" →
  ∃ st',
    step NewChat st ≫= step (Chunk i (Some t)) = Some st' ∧
    messages st' = [length (heap st)] ∧
    heap st' = heap st ++ [ {| role := model; text := Some (mr +:+ t);
                               imageUrl := undefined |} ] ∧
    contents (heap st') (messages st')
    = [ {| role := model; text := Some (mr +:+ t); imageUrl := undefined |} ].
Proof.
  intros Hi Hph Ht.
  assert (Htruthy : truthy (Some t) = true) by by destruct t.
  cbn [step mbind option_bind]. unfold resume.
  change (pending (handleNewChat st)) with (pending st). rewrite Hi.
  cbn [mbind option_bind]. rewrite Hph. unfold on_chunk.
  rewrite Htruthy. cbn [firstChunk modelResponse default].
  rewrite replace_last_text_new_chat. cbn [mbind option_bind].
  eexists. split; [reflexivity|].
  cbn [messages heap setMessages setPending].
  split; [done|]. split; [done|]. apply contents_singleton.
Qed.

Lemma new_chat_mid_stream_overwrites_greeting_witness :
  ∃ st st',
    run [InputChange "hi"; Submit; StreamOpened 0; Chunk 0 (Some "Hel")]
        (mount [initialWelcomeMessage] [0]) = Some st ∧
    step NewChat st ≫= step (Chunk 0 (Some "lo")) = Some st' ∧
    contents (heap st') (messages st')
    = [ {| role := model; text := Some "Hello"; imageUrl := undefined |} ].
Proof.
  eexists. 
  match goal with
  | |- ∃ st', run ?evs ?st0 = Some ?st ∧ _ =>
      assert (Hrun : run evs st0 = Some st) by (vm_compute; reflexivity)
  end.
  match type of Hrun with
  | _ = Some ?st =>
      destruct (new_chat_mid_stream_overwrites_greeting st 0
                  {| currentInput := "hi"; currentImage := None;
                     phase := streaming {| modelResponse := "Hel";
                                           firstChunk := false |} |}
                  "Hel" "lo" eq_refl eq_refl)
        as (st' & Hstep & _ & _ & Hc); [discriminate|]
  end.
  exists st'. split; [exact Hrun|]. split; [exact Hstep|exact Hc].
Defined.

(** ** A submit and its answer *)

Lemma handleSubmit_text st chat :
  isLoading st = false → pending st = [] →
  image st = None → imagePreview st = None →
  nonempty (trim (input st)) = true →
  geminiChat st = Some chat →
  handleSubmit st
  = setPending
      [ {| currentInput := input st; currentImage := None;
           phase := opening |} ]
      (sendMessageStream chat [text_part (input st)]
         (setIsLoading true
            (setImage None None
               (setInput "" (append (user_message (input st) None) st))))).
Proof.
  intros Hl Hp Hi Hv Ht Hc. unfold handleSubmit, submit_refused.
  rewrite Hl, Hi, Hv, Hc, Ht. cbn [negb andb orb bool_decide].
  unfold messageParts. rewrite Ht.
  cbn [pending setPending sendMessageStream setIsLoading setImage setInput
       append setMessages]. by rewrite Hp.
Qed.

(** X7. A submit of a text that is not blank, with no image, in an idle
    component, followed by the stream of the answer: the user message
    with the input as typed is appended, then what the accumulator adds
    (the answer, the fallback, or a partial answer and the apology); one
    request with the one text part is sent on the session the ref held;
    the input is cleared; and at the end the component is idle again,
    with an error logged only if the stream raised. *)
Theorem text_submit_then_answer (st : ChatState) (chat : Genai.Chat)
    (stream : list StreamEvent) :
  isLoading st = false → pending st = [] →
  image st = None → imagePreview st = None →
  nonempty (trim (input st)) = true →
  geminiChat st = Some chat →
  ∃ st',
    run (Submit :: StreamOpened 0 :: stream_events 0 stream) st = Some st' ∧
    appended st
      ([ {| role := user; text := Some (input st); imageUrl := null |} ]
       ++ (if existsb truthy (delivered stream)
           then [model_message (concat_fragments (delivered stream))]
           else if raises stream then [] else [fallback_message])
       ++ (if raises stream then [apology_message] else []))
      st' ∧
    input st' = "" ∧ isLoading st' = false ∧ pending st' = [] ∧
    requests st'
    = requests st ++
      [ (chat, [ {| Genai.text := Some (input st);
                    Genai.inlineData := None |} ]) ] ∧
    errors st' = errors st ++ (if raises stream then [Rejected] else []).
Proof.
  intros Hl Hp Hi Hv Ht Hc.
  change (run (Submit :: ?rest) st) with (run rest (handleSubmit st)).
  rewrite (handleSubmit_text _ _ Hl Hp Hi Hv Ht Hc).
  set (st2 := sendMessageStream _ _ _).
  rewrite (run_accumulate stream (input st) None st2).
  destruct (accumulate_appended stream st2) as (st3 & Heq & Happ).
  rewrite Heq. cbn [fmap option_fmap option_map]. eexists. split; [done|].
  assert (Hfields :
    input st3 = "" ∧ isLoading st3 = false ∧
    requests st3 = requests st2 ∧
    errors st3 = errors st2 ++ (if raises stream then [Rejected] else [])).
  { rewrite accumulate_eq in Heq. injection Heq as <-. cbv zeta.
    destruct (existsb truthy (delivered stream)), (raises stream); simpl;
      by rewrite ?app_nil_r. }
  destruct Hfields as (Hin & Hld & Hrq & Her).
  split; [|by repeat split].
  eapply (appended_trans st [_] st2); [by split|].
  destruct Happ as [Hh Hm]. by split.
Qed.

Lemma text_submit_then_answer_witness :
  ∃ st',
    run (Submit :: StreamOpened 0 ::
         stream_events 0 [fragment (Some "Hel"); fragment (Some "lo")])
        (setInput " hi " (mount [initialWelcomeMessage] [0])) = Some st' ∧
    input st' = "" ∧ isLoading st' = false ∧ pending st' = [].
Proof.
  destruct (text_submit_then_answer
              (setInput " hi " (mount [initialWelcomeMessage] [0]))
              (createChat (Some (history [initialWelcomeMessage])))
              [fragment (Some "Hel"); fragment (Some "lo")]
              eq_refl eq_refl eq_refl eq_refl eq_refl eq_refl)
    as (st' & Hrun & _ & Hin & Hld & Hp & _).
  by exists st'.
Defined.

(** * More properties of the history reconstructor *)

Lemma history_app a b : history (a ++ b) = history a ++ history b.
Proof. unfold history. by rewrite List.filter_app, map_app. Qed.

(** X8. The context is built message by message: the context of a list
    followed by another is the context of the first followed by that of
    the second; a message whose text is missing or empty adds nothing,
    wherever it stands, and the entries of the other messages are as
    without it; a message with a text adds one entry with its role and
    that text. *)
Theorem history_message_by_message (a b : list ChatMessage) :
  history (a ++ b) = history a ++ history b ∧
  (∀ msg, truthy (text msg) = false →
          history (a ++ msg :: b) = history (a ++ b)) ∧
  (∀ msg t, text msg = Some t → t ≠ "" →
            history (a ++ msg :: b)
            = history a ++
              {| Genai.role := role msg;
                 Genai.parts := [ {| Genai.text := Some t;
                                     Genai.inlineData := None |} ] |}
              :: history b).
Proof.
  split; [apply history_app|]. split.
  - intros msg Hmsg. rewrite !history_app. f_equal.
    unfold history. simpl. by rewrite Hmsg.
  - intros msg t Hmsg Ht. rewrite history_app. f_equal.
    assert (Htr : truthy (text msg) = true) by (apply truthy_spec; eauto).
    unfold history. simpl. rewrite Htr. simpl. by rewrite Hmsg.
Qed.

Lemma history_message_by_message_witness :
  history [ {| role := user; text := Some ""; imageUrl := str "blob:7c" |};
            {| role := model; text := Some "a cat"; imageUrl := undefined |} ]
  = history
      [ {| role := model; text := Some "a cat"; imageUrl := undefined |} ].
Proof.
  exact (proj1 (proj2 (history_message_by_message
                         []
                         [ {| role := model; text := Some "a cat";
                              imageUrl := undefined |} ]))
           {| role := user; text := Some ""; imageUrl := str "blob:7c" |}
           eq_refl).
Defined.

Lemma history_storable messages :
  history (map storable messages) = history messages.
Proof.
  induction messages as [|msg rest IH]; [done|].
  change (msg :: rest) with ([msg] ++ rest).
  rewrite map_app, !history_app, IH. f_equal.
  unfold history, storable. simpl.
  by destruct (startsWith_blob (imageUrl msg)); simpl;
    destruct (truthy (text msg)).
Qed.

(** X9. Saving and loading does not change the context: with a store
    that takes the write, the context reconstructed from the loaded list
    is the context of the list that was saved. *)
Theorem reloaded_history_is_the_same (b : Browser) (uid : string)
    (messages : list ChatMessage) :
  denied b = false → full b = false →
  ∃ loaded b',
    save_then_load uid messages b = (normal loaded, b') ∧
    history loaded = history messages.
Proof.
  intros Hd Hf. rewrite (save_then_load_accepted _ _ _ Hd Hf).
  do 2 eexists. split; [done|]. apply history_storable.
Qed.

Lemma reloaded_history_is_the_same_witness :
  ∃ loaded b',
    save_then_load "u1"
      [ {| role := user; text := Some "look"; imageUrl := str "blob:1f" |} ]
      {| localStorage := ∅; denied := false; full := false; console := [] |}
    = (normal loaded, b') ∧
    history loaded
    = history
        [ {| role := user; text := Some "look"; imageUrl := str "blob:1f" |} ].
Proof.
  exact (reloaded_history_is_the_same
           {| localStorage := ∅; denied := false; full := false;
              console := [] |} "u1"
           [ {| role := user; text := Some "look";
                imageUrl := str "blob:1f" |} ] eq_refl eq_refl).
Defined.

(** * What is sent with an image *)

Lemma contents_append h ms msg :
  Forall (λ l, l < length h) ms →
  contents (h ++ [msg]) (ms ++ [length h]) = contents h ms ++ [msg].
Proof.
  intros Hms. unfold contents. rewrite omap_app. f_equal.
  - induction Hms as [|l ms Hl _ IH]; [done|].
    change (omap ?g (l :: ms))
      with (match g l with Some y => y :: omap g ms | None => omap g ms end).
    cbv beta. rewrite lookup_app_l by done.
    by destruct (h !! l); rewrite IH.
  - simpl. by rewrite lookup_app_r, Nat.sub_diag by lia.
Qed.

(** X10. A submit with an image sends nothing at once: the request goes
    out when the file has been read, on the session that the effect has
    made meanwhile from the list with the new user message. So when the
    input is not empty the history of that session already ends with the
    user's text, and when the input is not blank the same text is also a
    part of the message, after the image part. *)
Theorem image_submit_request (st : ChatState) (f : File)
    (base64Data : string) :
  isLoading st = false → pending st = [] → image st = Some f →
  session_current st → allocated st →
  requests (handleSubmit st) = requests st ∧
  ∃ st',
    run [Submit; FileRead 0 base64Data] st = Some st' ∧
    requests st'
    = requests st ++
      [ (createChat
           (Some (history (contents (heap st) (messages st)) ++
                  if nonempty (input st)
                  then [ {| Genai.role := user;
                            Genai.parts :=
                              [ {| Genai.text := Some (input st);
                                   Genai.inlineData := None |} ] |} ]
                  else [])),
         {| Genai.text := None;
            Genai.inlineData :=
              Some {| Genai.mimeType := type f;
                      Genai.data := base64Data |} |}
         :: if nonempty (trim (input st))
            then [ {| Genai.text := Some (input st);
                      Genai.inlineData := None |} ]
            else []) ].
Proof.
  intros Hl Hp Hi Hs Ha.
  assert (Hsub : handleSubmit st
    = setPending
        [ {| currentInput := input st; currentImage := Some f;
             phase := reading |} ]
        (setIsLoading true
           (setImage None None
              (setInput ""
                 (append (user_message (input st) (imagePreview st)) st))))).
  { unfold handleSubmit, submit_refused. unfold session_current in Hs.
    rewrite Hl, Hi, Hs. cbn [negb andb orb bool_decide].
    rewrite andb_false_r.
    cbn [pending setPending setIsLoading setImage setInput append
         setMessages]. by rewrite Hp. }
  split; [by rewrite Hsub|].
  change (run [Submit; FileRead 0 base64Data] st)
    with (step (FileRead 0 base64Data) (handleSubmit st)
          ≫= λ st', Some st').
  rewrite Hsub. eexists. split; [reflexivity|].
  cbn [requests setPending sendMessageStream setIsLoading setImage setInput
       append setMessages on_file_read currentImage currentInput geminiChat
       heap messages fst snd].
  rewrite (contents_append _ _ _ Ha), history_app. f_equal. f_equal.
  unfold history, messageParts, user_message, nonempty. simpl.
  by destruct (input st).
Qed.

Lemma image_submit_request_witness :
  ∃ st' chat,
    run [Submit; FileRead 0 "QUJD"]
        (handleFileChange (Some {| name := "cat.png"; type := "image/png" |})
                          "7c" (setInput "look" (mount [] [])))
    = Some st' ∧
    requests st'
    = [ (chat,
         [ {| Genai.text := None;
              Genai.inlineData :=
                Some {| Genai.mimeType := "image/png";
                        Genai.data := "QUJD" |} |};
           {| Genai.text := Some "look"; Genai.inlineData := None |} ]) ] ∧
    Genai.history chat
    = Some [ {| Genai.role := user;
                Genai.parts := [ {| Genai.text := Some "look";
                                    Genai.inlineData := None |} ] |} ].
Proof.
  destruct (image_submit_request
              (handleFileChange
                 (Some {| name := "cat.png"; type := "image/png" |})
                 "7c" (setInput "look" (mount [] [])))
              {| name := "cat.png"; type := "image/png" |} "QUJD"
              eq_refl eq_refl eq_refl eq_refl (Forall_nil_2 _))
    as (_ & st' & Hrun & Hreq).
  exists st'. eexists. split; [exact Hrun|]. split; [exact Hreq|].
  reflexivity.
Defined.

(** * What every step keeps true of the messages *)

Lemma Forall_contents_append (P : ChatMessage → Prop) msg h ms :
  P msg → Forall P (contents h ms) →
  Forall P (contents (h ++ [msg]) (ms ++ [length h])).
Proof.
  rewrite !Forall_contents. intros Hmsg Hst l m Hl Hm.
  destruct (decide (l < length h)) as [Hlt|Hge].
  - rewrite lookup_app_l in Hm by done.
    apply (Hst l m); [|done].
    apply elem_of_app in Hl as [|Hl%list_elem_of_singleton]; [done|lia].
  - rewrite lookup_app_r in Hm by lia.
    destruct (l - length h) as [|n]; simplify_eq/=; done.
Qed.

Lemma Forall_contents_alter (P : ChatMessage → Prop) f l0 h ms :
  (∀ msg, P msg → P (f msg)) → Forall P (contents h ms) →
  Forall P (contents (alter f l0 h) ms).
Proof.
  rewrite !Forall_contents. intros Hf Hst l m Hl Hm.
  rewrite list_lookup_alter in Hm.
  destruct (decide (l0 = l)) as [->|]; [|by apply (Hst l m)].
  destruct (h !! l) as [m0|] eqn:Hm0; simplify_eq/=.
  apply Hf. by apply (Hst l m0).
Qed.

Section Preserved.

Variable P : ChatMessage → Prop.
Hypothesis P_model : ∀ t, P (model_message t).
Hypothesis P_assign : ∀ t msg, P msg → P (assign_text t msg).

Let holds (st : ChatState) : Prop :=
  Forall P (contents (heap st) (messages st)).

Lemma holds_append msg st : P msg → holds st → holds (append msg st).
Proof. intros. by apply Forall_contents_append. Qed.

Lemma holds_on_chunk c v st v' st' :
  on_chunk c v st = Some (v', st') → holds st → holds st'.
Proof.
  unfold on_chunk, replace_last_text.
  destruct (truthy c); [|by intros [= <- <-]].
  destruct (firstChunk v).
  - intros [= <- <-]. by apply holds_append.
  - destruct (last (messages st)); simpl; [|discriminate].
    intros [= <- <-] Hst. apply Forall_contents_alter; [|done].
    intros msg. apply P_assign.
Qed.

Lemma holds_on_throw e st : holds st → holds (on_throw e st).
Proof.
  intros Hst.
  apply (holds_append apology_message (log_error e st)); [|exact Hst].
  apply (P_model "Sorry, something went wrong. Please try again.").
Qed.

Lemma holds_on_done v st : holds st → holds (on_done v st).
Proof.
  intros Hst. unfold on_done. destruct (firstChunk v); [|done].
  apply (holds_append fallback_message st); [|exact Hst].
  apply (P_model "I'm sorry, I couldn't generate a response.").
Qed.

Lemma step_preserves ev st st' :
  (submit_refused st = false →
   P (user_message (input st) (imagePreview st))) →
  holds st → step ev st = Some st' → holds st'.
Proof.
  intros Hu Hst. destruct ev; simpl;
    try (intros [= <-]; exact Hst);
    try (apply (resume_invariant holds); [done|];
         intros inv next st1; destruct (phase inv); try discriminate).
  - intros [= <-]. unfold handleFileChange.
    destruct file as [f|]; [destruct (String.prefix _ _)|]; exact Hst.
  - intros [= <-]. unfold holds, handleNewChat.
    cbn [heap messages setMessages]. apply Forall_contents.
    intros l m ->%list_elem_of_singleton.
    rewrite lookup_app_r, Nat.sub_diag by lia. intros [= <-].
    apply (P_model _).
  - intros [= <-]. unfold handleSubmit.
    destruct (submit_refused st) eqn:Href; [done|].
    pose proof (holds_append _ st (Hu eq_refl) Hst) as Happ.
    destruct (geminiChat st); [destruct (image st)|]; try exact Happ.
    apply holds_on_throw. exact Happ.
  - intros [= Heq]. unfold on_file_read in Heq.
    destruct (currentImage inv), (geminiChat st); injection Heq as <- <-;
      try done; by apply holds_on_throw.
  - intros [= <- <-]. by apply holds_on_throw.
  - by intros [= <- <-].
  - intros [= <- <-]. by apply holds_on_throw.
  - destruct (on_chunk chunkText v st) as [[v' st2]|] eqn:Hch; simpl;
      [|discriminate].
    intros [= <- <-]. by apply (holds_on_chunk _ _ _ _ _ Hch).
  - intros [= <- <-]. by apply holds_on_done.
  - intros [= <- <-]. by apply holds_on_throw.
Qed.

End Preserved.

Lemma storable_no_image msg :
  truthyN (imageUrl msg) = false ∨ transient (imageUrl msg) →
  truthyN (imageUrl (storable msg)) = false.
Proof.
  unfold storable. intros [Hf|Ht%startsWith_blob_transient].
  - by destruct (startsWith_blob (imageUrl msg)).
  - by rewrite Ht.
Qed.

(** X11. No image outlives the session. In a component whose selection
    is an image shown by an object URL, if every image reference of the
    list is missing, [null], empty or transient, so it is after every
    step; and what saving writes for such a list and loading returns has
    no image reference left at all. *)
Theorem images_are_not_stored (st : ChatState) :
  selection_ok st → image_refs_transient st →
  (∀ ev st', step ev st = Some st' → image_refs_transient st') ∧
  (∀ uid b, denied b = false → full b = false →
     ∃ loaded b',
       save_then_load uid (contents (heap st) (messages st)) b
       = (normal loaded, b') ∧
       localStorage b' !! history_key uid = Some (json loaded) ∧
       Forall (λ msg, truthyN (imageUrl msg) = false) loaded).
Proof.
  intros Hsel Hst. split.
  - intros ev st'. apply step_preserves; [by left|by intros t msg|
      |exact Hst].
    intros _. unfold selection_ok in Hsel. unfold user_message. simpl.
    destruct (image st).
    + destruct Hsel as (_ & id & ->). right. by exists id.
    + rewrite Hsel. by left.
  - intros uid b Hd Hf. rewrite (save_then_load_accepted _ _ _ Hd Hf).
    do 2 eexists. split; [done|]. split; [apply lookup_insert_eq|].
    apply Forall_fmap. eapply Forall_impl; [exact Hst|].
    intros msg. apply storable_no_image.
Qed.

Lemma images_are_not_stored_witness :
  ∃ loaded b',
    save_then_load "u1"
      [ {| role := user; text := Some "look"; imageUrl := str "blob:7c" |} ]
      {| localStorage := ∅; denied := false; full := false; console := [] |}
    = (normal loaded, b') ∧
    Forall (λ msg, truthyN (imageUrl msg) = false) loaded.
Proof.
  assert (Hst : image_refs_transient
                  (mount [ {| role := user; text := Some "look";
                              imageUrl := str "blob:7c" |} ] [0])).
  { constructor; [|constructor]. right. by exists "7c". }
  destruct (proj2 (images_are_not_stored
                     (mount [ {| role := user; text := Some "look";
                                 imageUrl := str "blob:7c" |} ] [0])
                     eq_refl Hst) "u1"
              {| localStorage := ∅; denied := false; full := false;
                 console := [] |} eq_refl eq_refl)
    as (loaded & b' & Heq & _ & Hall).
  by exists loaded, b'.
Defined.

(** * More properties of the localStorage helpers *)

Lemma history_key_inj uid other :
  history_key uid = history_key other → uid = other.
Proof.
  intros H. apply (f_equal (drop_chars 20)) in H. exact H.
Qed.

Lemma saveChatHistory_eq uid messages b :
  saveChatHistory uid messages b
  = (normal (),
     if denied b
     then (console_error (Some "Failed to save chat history:")
                         SecurityError b).2
     else if full b
     then (console_error (Some "Failed to save chat history:")
                         QuotaExceededError b).2
     else {| localStorage :=
               <[history_key uid := json (map storable messages)]>
                 (localStorage b);
             denied := denied b; full := full b; console := console b |}).
Proof.
  unfold saveChatHistory, try_catch, mbind, JS_bind, JSON_stringify, mret,
    JS_ret, setItem, console_error. cbv beta zeta.
  destruct (denied b) eqn:Hd; [|destruct (full b) eqn:Hf]; cbn;
    by rewrite ?Hd, ?Hf.
Qed.

Lemma loadChatHistory_result uid b :
  (loadChatHistory uid b).1
  = normal (loaded_from (denied b) (localStorage b !! history_key uid)).
Proof.
  rewrite loadChatHistory_eq. unfold loaded_from. cbv zeta.
  destruct (denied b); [done|].
  destruct (localStorage b !! history_key uid) as [[ms|raw]|]; try done.
  by destruct (String.eqb raw "").
Qed.

Lemma saveChatHistory_frame uid messages b :
  denied (saveChatHistory uid messages b).2 = denied b ∧
  ∀ key, key ≠ history_key uid →
         localStorage (saveChatHistory uid messages b).2 !! key
         = localStorage b !! key.
Proof.
  rewrite saveChatHistory_eq. cbn [snd]. unfold console_error.
  destruct (denied b) eqn:Hd; [|destruct (full b) eqn:Hf]; cbn;
    (split; [done|]); try done.
  intros key Hkey. by rewrite lookup_insert_ne.
Qed.

(** X12. The histories of two accounts do not touch: whatever one
    account saves, and whether or not the store takes it, what another
    account loads is what it would have loaded before. *)
Theorem accounts_do_not_interfere (b : Browser) (uid other : string)
    (messages : list ChatMessage) :
  uid ≠ other →
  (loadChatHistory other (saveChatHistory uid messages b).2).1
  = (loadChatHistory other b).1.
Proof.
  intros Hne. rewrite !loadChatHistory_result.
  destruct (saveChatHistory_frame uid messages b) as [-> Hkeys].
  rewrite Hkeys; [done|].
  intros Heq%history_key_inj. by destruct Hne.
Qed.

Lemma accounts_do_not_interfere_witness :
  (loadChatHistory "u2"
     (saveChatHistory "u1" [model_message "mine"]
        {| localStorage := {[ history_key "u2" := json [model_message "yours"] ]};
           denied := false; full := false; console := [] |}).2).1
  = normal [model_message "yours"].
Proof.
  rewrite (accounts_do_not_interfere _ "u1" "u2"); [|discriminate].
  vm_compute. reflexivity.
Defined.

(** * Properties of the root component *)

Lemma loadChatHistory_store uid b :
  localStorage (loadChatHistory uid b).2 = localStorage b ∧
  denied (loadChatHistory uid b).2 = denied b ∧
  full (loadChatHistory uid b).2 = full b.
Proof.
  rewrite loadChatHistory_eq. cbv zeta. unfold console_error.
  destruct (denied b) eqn:Hd; [by cbn|].
  destruct (localStorage b !! history_key uid) as [[ms|raw]|]; try done.
  by destruct (String.eqb raw ""); cbn.
Qed.

Lemma onAuthStateChanged_login greeting uid st b :
  App.onAuthStateChanged greeting (Some uid) st b
  = let loaded :=
      loaded_from (denied b) (localStorage b !! history_key uid) in
    let shown := if 0 <? length loaded then loaded else [greeting] in
    (normal {| App.user := Some uid; App.authLoading := false;
               App.messages := shown |},
     (saveChatHistory uid shown (loadChatHistory uid b).2).2).
Proof.
  unfold App.onAuthStateChanged, App.persist, mbind, JS_bind, mret, JS_ret.
  pose proof (loadChatHistory_result uid b) as Hres.
  destruct (loadChatHistory uid b) as [c b1]. simpl in Hres. subst c.
  cbv zeta. cbn [App.user snd]. rewrite !saveChatHistory_eq. done.
Qed.

(** X13. Signing in shows the stored history or the greeting object. For
    a store whose entry for the account, if there is one, is the text of a
    message list or a text that does not parse (a JSON text of another
    shape, such as [null], is outside the model of the store): the
    listener completes normally and the chat screen opens on a list that
    is not empty. It is the stored list when there is a non-empty one that
    can be read; in every other case (no entry, an empty list, a text that
    does not parse, a store that cannot be read) it is the one greeting
    object of the first render with whatever that object holds by then,
    [greeting]: the greeting text only as long as no streaming update has
    assigned to the object. *)
Theorem login_shows_history_or_greeting (greeting : ChatMessage)
    (b : Browser) (st : App.State) (uid : string) :
  ∃ st' b',
    App.onAuthStateChanged greeting (Some uid) st b = (normal st', b') ∧
    App.messages st' ≠ [] ∧
    App.render st' = App.ChatScreen uid (App.messages st') ∧
    (denied b = false →
     ∀ messages, messages ≠ [] →
       localStorage b !! history_key uid = Some (json messages) →
       App.messages st' = messages) ∧
    (denied b = true ∨
     localStorage b !! history_key uid = None ∨
     localStorage b !! history_key uid = Some (json []) ∨
     (∃ raw, localStorage b !! history_key uid = Some (malformed raw)) →
     App.messages st' = [greeting]).
Proof.
  rewrite onAuthStateChanged_login. cbv zeta. do 2 eexists.
  split; [done|]. cbn [App.messages App.render App.authLoading App.user].
  split; [|split; [done|split]].
  - by destruct (loaded_from _ _).
  - intros Hd messages Hne Hk. rewrite Hd, Hk. simpl.
    by destruct messages.
  - intros [->|[->|[->|[raw ->]]]]; simpl; try done;
      by destruct (denied b).
Qed.

Lemma login_shows_history_or_greeting_witness :
  ∃ st' b',
    App.onAuthStateChanged initialWelcomeMessage (Some "u1") App.initial
      {| localStorage := {[ history_key "u1" := malformed "[{" ]};
         denied := false; full := false; console := [] |}
    = (normal st', b') ∧
    App.messages st' = [initialWelcomeMessage].
Proof.
  destruct (login_shows_history_or_greeting initialWelcomeMessage
              {| localStorage := {[ history_key "u1" := malformed "[{" ]};
                 denied := false; full := false; console := [] |}
              App.initial "u1")
    as (st' & b' & Heq & _ & _ & _ & Hgreet).
  exists st', b'. split; [exact Heq|].
  apply Hgreet. right. right. right. exists "[{".
  apply lookup_singleton_eq.
Defined.

Lemma storable_idemp msg : storable (storable msg) = storable msg.
Proof.
  unfold storable. destruct (startsWith_blob (imageUrl msg)) eqn:Hb; simpl.
  - done.
  - by rewrite Hb.
Qed.

Lemma map_storable_idemp messages :
  map storable (map storable messages) = map storable messages.
Proof.
  rewrite map_map. apply map_ext. intros msg. apply storable_idemp.
Qed.

(** X14. A conversation survives signing out and in again, without its
    images. With a store that takes the write, after a change of a
    signed-in account's messages to a non-empty list: signing out empties
    the displayed list, shows the auth screen and leaves the store as it
    is; signing in as the same account shows the list again, every
    transient image reference blanked, and leaves the store as it is.
    The greeting object is not shown, so it does not matter what it
    holds. *)
Theorem sign_out_and_in_restores (greeting : ChatMessage) (b : Browser)
    (st : App.State) (uid : string) (messages : list ChatMessage) :
  denied b = false → full b = false →
  App.user st = Some uid → messages ≠ [] →
  ∃ st1 b1,
    App.setMessages messages st b = (normal st1, b1) ∧
    App.onAuthStateChanged greeting None st1 b1
    = (normal {| App.user := None; App.authLoading := false;
                 App.messages := [] |}, b1) ∧
    App.render {| App.user := None; App.authLoading := false;
                  App.messages := [] |} = App.AuthScreen ∧
    App.onAuthStateChanged greeting (Some uid)
      {| App.user := None; App.authLoading := false; App.messages := [] |}
      b1
    = (normal {| App.user := Some uid; App.authLoading := false;
                 App.messages := map storable messages |}, b1).
Proof.
  intros Hd Hf Hu Hne.
  unfold App.setMessages, App.persist, mbind, JS_bind, mret, JS_ret.
  cbn [App.user]. rewrite Hu, (saveChatHistory_accepted _ _ _ Hd Hf).
  do 2 eexists. split; [done|]. split; [done|]. split; [done|].
  rewrite onAuthStateChanged_login. cbv zeta.
  set (b1 := {| localStorage := _ |}).
  assert (Hd1 : denied b1 = false) by exact Hd.
  assert (Hf1 : full b1 = false) by exact Hf.
  assert (Hk : localStorage b1 !! history_key uid
               = Some (json (map storable messages)))
    by apply lookup_insert_eq.
  assert (Hload : loadChatHistory uid b1
                  = (normal (map storable messages), b1)).
  { rewrite loadChatHistory_eq. cbv zeta. by rewrite Hd1, Hk. }
  rewrite Hload, Hd1, Hk. cbn [snd loaded_from].
  assert (Hlen : (0 <? length (map storable messages)) = true).
  { destruct messages; [done|]. done. }
  rewrite Hlen, (saveChatHistory_accepted _ _ _ Hd1 Hf1).
  cbn [snd]. rewrite map_storable_idemp. do 2 f_equal.
  subst b1. cbn [localStorage denied full console].
  by rewrite insert_insert_eq.
Qed.

Lemma sign_out_and_in_restores_witness :
  ∃ b1,
    App.onAuthStateChanged initialWelcomeMessage (Some "u1")
      {| App.user := None; App.authLoading := false; App.messages := [] |}
      b1
    = (normal {| App.user := Some "u1"; App.authLoading := false;
                 App.messages :=
                   [ {| role := user; text := Some "look";
                        imageUrl := str "" |} ] |}, b1).
Proof.
  destruct (sign_out_and_in_restores initialWelcomeMessage
              {| localStorage := ∅; denied := false; full := false;
                 console := [] |}
              {| App.user := Some "u1"; App.authLoading := false;
                 App.messages := [initialWelcomeMessage] |}
              "u1"
              [ {| role := user; text := Some "look";
                   imageUrl := str "blob:7c" |} ]
              eq_refl eq_refl eq_refl)
    as (st1 & b1 & _ & _ & _ & Hin); [discriminate|].
  by exists b1.
Defined.

(** X15. Starting a new chat overwrites the stored conversation: for a
    signed-in account and a store that takes the write, after
    [handleNewChat] the list is the greeting alone and so is what the
    store holds for the account, whatever was stored before. *)
Theorem new_chat_replaces_stored_history (b : Browser) (st : App.State)
    (uid : string) :
  denied b = false → full b = false → App.user st = Some uid →
  ∃ st' b',
    App.handleNewChat st b = (normal st', b') ∧
    App.messages st' = [initialWelcomeMessage] ∧
    App.user st' = Some uid ∧
    localStorage b' !! history_key uid = Some (json [initialWelcomeMessage]) ∧
    (loadChatHistory uid b').1 = normal [initialWelcomeMessage].
Proof.
  intros Hd Hf Hu.
  unfold App.handleNewChat, App.setMessages, App.persist, mbind, JS_bind,
    mret, JS_ret.
  cbn [App.user]. rewrite Hu, (saveChatHistory_accepted _ _ _ Hd Hf).
  do 2 eexists. split; [done|]. split; [done|]. split; [done|].
  cbn [localStorage]. rewrite loadChatHistory_result.
  cbn [localStorage denied]. rewrite Hd, lookup_insert_eq.
  by split.
Qed.

Lemma new_chat_replaces_stored_history_witness :
  ∃ st' b',
    App.handleNewChat
      {| App.user := Some "u1"; App.authLoading := false;
         App.messages := [model_message "old"] |}
      {| localStorage := {[ history_key "u1" := json [model_message "old"] ]};
         denied := false; full := false; console := [] |}
    = (normal st', b') ∧
    (loadChatHistory "u1" b').1 = normal [initialWelcomeMessage].
Proof.
  destruct (new_chat_replaces_stored_history
              {| localStorage :=
                   {[ history_key "u1" := json [model_message "old"] ]};
                 denied := false; full := false; console := [] |}
              {| App.user := Some "u1"; App.authLoading := false;
                 App.messages := [model_message "old"] |}
              "u1" eq_refl eq_refl eq_refl)
    as (st' & b' & Heq & _ & _ & _ & Hload).
  by exists st', b'.
Defined.

(** * Properties of the auth component *)

Lemma auth_step_calls ev st :
  AuthComponent.calls (AuthComponent.step ev st) = AuthComponent.calls st ∨
  ∃ c,
    AuthComponent.calls (AuthComponent.step ev st)
    = AuthComponent.calls st ++ [c] ∧
    ev = AuthComponent.Submit ∧
    AuthComponent.credentials c
    = (AuthComponent.email st, AuthComponent.password st) ∧
    nonempty (trim (AuthComponent.email st)) = true ∧
    nonempty (trim (AuthComponent.password st)) = true.
Proof.
  destruct ev; simpl; try by left.
  unfold AuthComponent.handleSubmit.
  destruct (nonempty (trim (AuthComponent.email st))) eqn:He,
           (nonempty (trim (AuthComponent.password st))) eqn:Hp; simpl;
    try by left.
  right. eexists. split; [done|].
  by destruct (AuthComponent.isLoginView st).
Qed.

(** X16. The auth component never asks the provider with a blank email or
    a blank password: every call it has made carries credentials that are
    not blank. A submit makes at most one call, with the email and the
    password as typed, a sign-in in the login view and a sign-up in the
    other; with a blank field it makes none, shows "Email and password
    cannot be empty." and leaves the loading flag as it is. A rejected
    call always leaves a message to show, that of the error or the fixed
    one, and clears the loading flag. *)
Theorem auth_calls_carry_credentials (st : AuthComponent.State) :
  AuthComponent.reachable st →
  Forall (λ c, nonempty (trim (AuthComponent.credentials c).1) = true ∧
               nonempty (trim (AuthComponent.credentials c).2) = true)
         (AuthComponent.calls st) ∧
  (nonempty (trim (AuthComponent.email st))
   && nonempty (trim (AuthComponent.password st)) = true →
   AuthComponent.calls (AuthComponent.handleSubmit st)
   = AuthComponent.calls st ++
     [ if AuthComponent.isLoginView st
       then AuthComponent.signInWithEmailAndPassword
              (AuthComponent.email st) (AuthComponent.password st)
       else AuthComponent.createUserWithEmailAndPassword
              (AuthComponent.email st) (AuthComponent.password st) ] ∧
   AuthComponent.error (AuthComponent.handleSubmit st) = "" ∧
   AuthComponent.isLoading (AuthComponent.handleSubmit st) = true) ∧
  (nonempty (trim (AuthComponent.email st))
   && nonempty (trim (AuthComponent.password st)) = false →
   AuthComponent.calls (AuthComponent.handleSubmit st)
   = AuthComponent.calls st ∧
   AuthComponent.error (AuthComponent.handleSubmit st)
   = "Email and password cannot be empty." ∧
   AuthComponent.isLoading (AuthComponent.handleSubmit st)
   = AuthComponent.isLoading st) ∧
  (∀ message,
     AuthComponent.error
       (AuthComponent.settle (AuthComponent.rejected message) st) ≠ "" ∧
     AuthComponent.isLoading
       (AuthComponent.settle (AuthComponent.rejected message) st) = false ∧
     AuthComponent.calls
       (AuthComponent.settle (AuthComponent.rejected message) st)
     = AuthComponent.calls st).
Proof.
  intros Hr. split; [|split; [|split]].
  - induction Hr as [|st ev _ IH]; [constructor|].
    destruct (auth_step_calls ev st)
      as [->|(c & -> & _ & Hc & He & Hp)]; [done|].
    apply Forall_app. split; [done|]. constructor; [|done].
    by rewrite Hc.
  - intros [He Hp]%andb_true_iff. unfold AuthComponent.handleSubmit.
    by rewrite He, Hp.
  - intros H. unfold AuthComponent.handleSubmit.
    by destruct (nonempty (trim (AuthComponent.email st))),
                (nonempty (trim (AuthComponent.password st))).
  - intros message. simpl. split; [|done].
    destruct message as [[|a s]|]; simpl; done.
Qed.

Lemma auth_calls_carry_credentials_witness :
  AuthComponent.calls
    (AuthComponent.handleSubmit
       (AuthComponent.step (AuthComponent.PasswordChange "   ")
          (AuthComponent.step (AuthComponent.EmailChange "a@b.c")
             AuthComponent.initial))) = [] ∧
  AuthComponent.error
    (AuthComponent.handleSubmit
       (AuthComponent.step (AuthComponent.PasswordChange "   ")
          (AuthComponent.step (AuthComponent.EmailChange "a@b.c")
             AuthComponent.initial)))
  = "Email and password cannot be empty.".
Proof.
  destruct (auth_calls_carry_credentials
              (AuthComponent.step (AuthComponent.PasswordChange "   ")
                 (AuthComponent.step (AuthComponent.EmailChange "a@b.c")
                    AuthComponent.initial))
              (AuthComponent.reachable_step _ _
                 (AuthComponent.reachable_step _ _
                    AuthComponent.reachable_initial)))
    as (_ & _ & Hblank & _).
  destruct (Hblank eq_refl) as (Hc & He & _). by split.
Defined.

(** * Properties of [fileToBase64] *)

Lemma split_first_no_sep sep s :
  contains sep s = false → split_first sep s = (s, []).
Proof.
  induction s as [|c s IH]; simpl; [done|].
  intros [Hc Hs]%orb_false_iff. by rewrite Hc, (IH Hs).
Qed.

Lemma split_first_sep sep header rest :
  contains sep header = false →
  split_first sep (header +:+ String sep rest)
  = (header, (split_first sep rest).1 :: (split_first sep rest).2).
Proof.
  induction header as [|c header IH]; intros Hh.
  - change (EmptyString +:+ String sep rest) with (String sep rest).
    simpl. rewrite Ascii.eqb_refl. by destruct (split_first sep rest).
  - simpl in Hh. apply orb_false_iff in Hh as [Hc Hh].
    change (String c header +:+ String sep rest)
      with (String c (header +:+ String sep rest)).
    simpl. by rewrite (IH Hh), Hc.
Qed.

(** X17. [fileToBase64] resolves with the text between the first and the
    second comma of what the reader produced: for a data URL, whose
    header and base64 payload have no comma, that is the payload; what
    follows a second comma is dropped. Without any comma it resolves with
    [undefined], and a read error rejects. *)
Theorem fileToBase64_payload (header payload : string) :
  contains "," header = false → contains "," payload = false →
  fileToBase64 (onload (header +:+ String "," payload))
  = normal (Some payload) ∧
  (∀ more,
     fileToBase64
       (onload (header +:+ String "," (payload +:+ String "," more)))
     = normal (Some payload)) ∧
  fileToBase64 (onload header) = normal None ∧
  fileToBase64 onerror = throw Rejected.
Proof.
  intros Hh Hp. unfold fileToBase64, split.
  split; [|split; [|split]].
  - by rewrite (split_first_sep _ _ _ Hh), (split_first_no_sep _ _ Hp).
  - intros more.
    by rewrite (split_first_sep _ _ _ Hh), (split_first_sep _ _ _ Hp).
  - by rewrite (split_first_no_sep _ _ Hh).
  - done.
Qed.

Lemma fileToBase64_payload_witness :
  fileToBase64 (onload "data:image/png;base64,iVBORw0KGgo=")
  = normal (Some "iVBORw0KGgo=").
Proof.
  exact (proj1 (fileToBase64_payload "data:image/png;base64" "iVBORw0KGgo="
                  eq_refl eq_refl)).
Defined.

(** * Properties of the [code] component *)

Lemma all_word_cons c s :
  all_word (String c s) → is_word_char c = true ∧ all_word s.
Proof.
  intros H. split.
  - apply H. simpl. by rewrite Ascii.eqb_refl.
  - intros d Hd. apply H. simpl. by rewrite Hd, orb_true_r.
Qed.

Lemma take_word_all s : all_word s → take_word s = s.
Proof.
  induction s as [|c s IH]; [done|].
  intros [Hc Hs]%all_word_cons. simpl. by rewrite Hc, (IH Hs).
Qed.

Lemma take_word_is_word s : all_word (take_word s).
Proof.
  induction s as [|c s IH]; simpl; [by intros d|].
  destruct (is_word_char c) eqn:Hc; [|by intros d].
  intros d. simpl. intros [Hd|Hd]%orb_true_iff.
  - apply Ascii.eqb_eq in Hd. by subst.
  - by apply IH.
Qed.

Lemma exec_language_sound s language :
  exec_language s = Some language → language ≠ "" ∧ all_word language.
Proof.
  induction s as [|c s IH]; [done|].
  change (exec_language (String c s))
    with (if String.prefix "language-" (String c s)
             && nonempty (take_word (drop_chars 9 (String c s)))
          then Some (take_word (drop_chars 9 (String c s)))
          else exec_language s).
  set (w := take_word (drop_chars 9 (String c s))).
  destruct (String.prefix "language-" (String c s) && nonempty w) eqn:Hm;
    [|exact IH].
  apply andb_true_iff in Hm as [_ Hne]. intros [= <-].
  split; [|apply take_word_is_word].
  intros Heq. by rewrite Heq in Hne.
Qed.

Lemma replace_final_newline_app s :
  replace_final_newline (s +:+ String "010" "") = s.
Proof.
  induction s as [|c s IH]; [done|].
  change (String c s +:+ String "010" "")
    with (String c (s +:+ String "010" "")).
  cbn [replace_final_newline]. rewrite IH.
  destruct s; [|by rewrite andb_false_r].
  by rewrite andb_false_r.
Qed.

Lemma exec_language_fenced language :
  language ≠ "" → all_word language →
  exec_language ("language-" +:+ language) = Some language.
Proof.
  intros Hne Hw.
  change ("language-" +:+ language)
    with (String "l" ("anguage-" +:+ language)).
  change (exec_language (String "l" ("anguage-" +:+ language)))
    with (if String.prefix "language-" (String "l" ("anguage-" +:+ language))
             && nonempty (take_word language)
          then Some (take_word language)
          else exec_language ("anguage-" +:+ language)).
  assert (Hp : String.prefix "language-"
                 (String "l" ("anguage-" +:+ language)) = true)
    by by destruct language.
  rewrite Hp, (take_word_all _ Hw).
  by destruct language.
Qed.

(** X18. A code element whose class is [language-] and a name made of
    word characters, as a fenced block has, is rendered by the syntax
    highlighter for that language with one final line feed of its text
    removed; with no class or an empty one it is rendered as inline code
    with its text as it is. Whatever the class, a language that is found
    is a non-empty run of word characters. *)
Theorem fenced_code_is_highlighted (language children : string) :
  language ≠ "" → all_word language →
  code (Some ("language-" +:+ language)) (children +:+ String "010" "")
  = SyntaxHighlighter language children ∧
  code None children = code_tag children ∧
  code (Some "") children = code_tag children ∧
  (∀ className found text,
     code className text = SyntaxHighlighter found text →
     found ≠ "" ∧ all_word found).
Proof.
  intros Hne Hw. split; [|split; [done|split; [done|]]].
  - unfold code.
    change (default "" (Some ("language-" +:+ language)))
      with ("language-" +:+ language).
    by rewrite (exec_language_fenced _ Hne Hw), replace_final_newline_app.
  - intros className found text. unfold code.
    destruct (exec_language (default "" className)) as [lang|] eqn:He;
      [|discriminate].
    intros [= <- _]. by apply (exec_language_sound _ _ He).
Qed.

Lemma fenced_code_is_highlighted_witness :
  code (Some "language-ts") ("let x = 1;" +:+ String "010" "")
  = SyntaxHighlighter "ts" "let x = 1;".
Proof.
  refine (proj1 (fenced_code_is_highlighted "ts" "let x = 1;" _ _)).
  - discriminate.
  - intros c. cbn [contains]. intros Hc.
    repeat (apply orb_true_iff in Hc as [Hc|Hc];
            [apply Ascii.eqb_eq in Hc; by subst|]).
    discriminate.
Defined.

(** * Properties of the page *)


(** The guard of [handleSubmit] does not see a stream that has outlived
    its component. Whatever the page, if an activation of the mounted
    component is in the loop over its stream when the user signs out, then
    after a sign-in (of any account, with any stored history) and a
    non-blank input the stream is still in flight, [isLoading] is false,
    and a submit appends the message of the user and sends its text on the
    session of the new component. *)
Lemma remount_opens_guard (pg : Page.State) (j : nat) (inv : Invocation)
    (v : Locals) (uid value : string) (loaded : list ChatMessage) :
  pending (Page.chat pg) !! j = Some inv →
  phase inv = streaming v →
  nonempty (trim value) = true →
  ∃ pg1 pg2 session,
    Page.run [ Page.SignedOut; Page.SignedIn uid loaded;
               Page.Component (InputChange value) ] pg = Some pg1 ∧
    Page.user pg1 = Some uid ∧
    Page.streaming_in_flight pg1 ∧
    isLoading (Page.chat pg1) = false ∧
    geminiChat (Page.chat pg1) = Some session ∧
    Page.step (Page.Component Submit) pg1 = Some pg2 ∧
    Page.orphans pg2 = Page.orphans pg1 ∧
    appended (Page.chat pg1) [user_message value None] (Page.chat pg2) ∧
    requests (Page.chat pg2)
    = requests (Page.chat pg1) ++ [(session, [text_part value])] ∧
    pending (Page.chat pg2)
    = [ {| currentInput := value; currentImage := None;
           phase := opening |} ].
Proof.
  intros Hj Hph Hvalue.
  set (pg0 := Page.onAuthStateChanged (Some uid) loaded
                (Page.onAuthStateChanged None [] pg)).
  assert (Hrun : Page.run [ Page.SignedOut; Page.SignedIn uid loaded;
                            Page.Component (InputChange value) ] pg
                 = Some {| Page.user := Some uid;
                           Page.chat := setInput value (Page.chat pg0);
                           Page.orphans := Page.orphans pg0 |}).
  { cbn [Page.run Page.step mbind option_bind]. fold pg0.
    assert (Hu : Page.user pg0 = Some uid).
    { unfold pg0, Page.onAuthStateChanged.
      by destruct (0 <? length loaded). }
    rewrite Hu. by cbn [step mbind option_bind]. }
  assert (Hflight : ∃ inv' v', phase inv' = streaming v' ∧
            inv' ∈ map Page.suspended (Page.orphans pg0)).
  { exists inv, v. split; [done|].
    apply list_elem_of_In, in_map_iff.
    exists {| Page.suspended := inv; Page.ref := geminiChat (Page.chat pg) |}.
    split; [done|].
    unfold pg0, Page.onAuthStateChanged.
    destruct (0 <? length loaded); cbn [Page.orphans];
      apply in_or_app; right; apply in_map_iff; exists inv;
      (split; [done|]); apply list_elem_of_In;
      by apply (list_elem_of_lookup_2 _ j). }
  assert (Hfresh : ∃ h ms,
            Page.chat pg0
            = Page.mounted h ms
                (Page.no_component (heap (Page.chat pg)) [] (Page.chat pg))).
  { unfold pg0, Page.onAuthStateChanged.
    destruct (0 <? length loaded); cbn [Page.user Page.chat]; eauto. }
  destruct Hfresh as (h & ms & Hchat).
  set (st1 := setInput value (Page.chat pg0)).
  set (session := createChat (Some (history (contents h ms)))).
  assert (Hsub : handleSubmit st1
                 = setPending
                     [ {| currentInput := value; currentImage := None;
                          phase := opening |} ]
                     (sendMessageStream session [text_part value]
                        (setIsLoading true
                           (setImage None None
                              (setInput ""
                                 (append (user_message value None) st1)))))).
  { apply (handleSubmit_text st1 session); subst st1; rewrite Hchat;
      try done. }
  eexists _, _, session. split; [exact Hrun|].
  cbn [Page.user Page.chat Page.orphans Page.step mbind option_bind step].
  fold st1. rewrite Hsub.
  split; [done|]. split.
  { destruct Hflight as (inv' & v' & ? & ?). exists inv', v'.
    split; [done|]. by right. }
  split; [by subst st1; rewrite Hchat|].
  split; [by subst st1; rewrite Hchat|].
  split; [reflexivity|]. cbn [Page.orphans Page.chat].
  split; [done|]. split; [by split|]. by split.
Qed.

Lemma page_orphan_chunk pg i o mr t l :
  Page.orphans pg !! i = Some o →
  phase (Page.suspended o)
  = streaming {| modelResponse := mr; firstChunk := false |} →
  t ≠ "" →
  last (messages (Page.chat pg)) = Some l →
  ∃ pg',
    Page.step (Page.Orphaned (Chunk i (Some t))) pg = Some pg' ∧
    Page.user pg' = Page.user pg ∧
    messages (Page.chat pg') = messages (Page.chat pg) ∧
    heap (Page.chat pg')
    = alter (assign_text (mr +:+ t)) l (heap (Page.chat pg)) ∧
    requests (Page.chat pg') = requests (Page.chat pg) ∧
    errors (Page.chat pg') = errors (Page.chat pg).
Proof.
  intros Ho Hph Ht Hlast.
  assert (Htruthy : truthy (Some t) = true) by by destruct t.
  unfold Page.step, Page.resume. cbn [activation mbind option_bind].
  rewrite Ho. cbn [mbind option_bind]. rewrite Hph.
  unfold on_chunk. rewrite Htruthy.
  cbn [firstChunk modelResponse default].
  unfold replace_last_text. rewrite Hlast. cbn [mbind option_bind].
  eexists. split; [reflexivity|]. cbn [Page.user Page.chat].
  by destruct (Page.user pg).
Qed.

(** X19. A stream that outlives its component writes into the list of the
    next one. When the loop of an orphan, past its first fragment, takes a
    non-empty fragment, the text of the response so far is assigned to
    the object that is last in the list at that moment, whatever that
    object is; the list, the other objects, the requests and the console
    stay as they are. If the object is the greeting object of the first
    render, which a sign-in without stored history shows, then a sign-out
    followed by a sign-in without stored history shows that text in place
    of the greeting. *)
Theorem stale_fragment_rewrites_last (pg : Page.State) (i : nat)
    (o : Page.Orphan) (mr t : string) (l : nat) (msg : ChatMessage) :
  Page.orphans pg !! i = Some o →
  phase (Page.suspended o)
  = streaming {| modelResponse := mr; firstChunk := false |} →
  t ≠ "" →
  last (messages (Page.chat pg)) = Some l →
  heap (Page.chat pg) !! l = Some msg →
  ∃ pg',
    Page.step (Page.Orphaned (Chunk i (Some t))) pg = Some pg' ∧
    Page.user pg' = Page.user pg ∧
    messages (Page.chat pg') = messages (Page.chat pg) ∧
    length (heap (Page.chat pg')) = length (heap (Page.chat pg)) ∧
    heap (Page.chat pg') !! l
    = Some {| role := role msg; text := Some (mr +:+ t);
              imageUrl := imageUrl msg |} ∧
    (∀ l', l' ≠ l →
           heap (Page.chat pg') !! l' = heap (Page.chat pg) !! l') ∧
    requests (Page.chat pg') = requests (Page.chat pg) ∧
    errors (Page.chat pg') = errors (Page.chat pg) ∧
    (l = Page.greeting →
     ∀ uid,
       contents
         (heap (Page.chat (Page.onAuthStateChanged (Some uid) []
                             (Page.onAuthStateChanged None [] pg'))))
         (messages (Page.chat (Page.onAuthStateChanged (Some uid) []
                                 (Page.onAuthStateChanged None [] pg'))))
       = [ {| role := role msg; text := Some (mr +:+ t);
              imageUrl := imageUrl msg |} ]).
Proof.
  intros Ho Hph Ht Hlast Hmsg.
  destruct (page_orphan_chunk pg i o mr t l Ho Hph Ht Hlast)
    as (pg' & Hstep & Hu & Hms & Hh & Hreq & Herr).
  assert (Hl : heap (Page.chat pg') !! l
               = Some (assign_text (mr +:+ t) msg)).
  { by rewrite Hh, list_lookup_alter_eq, Hmsg. }
  exists pg'. split; [done|]. split; [done|]. split; [done|].
  split; [by rewrite Hh, length_alter|].
  split; [done|].
  split; [intros l' Hne; by rewrite Hh, list_lookup_alter_ne|].
  split; [done|]. split; [done|].
  intros -> uid. unfold Page.onAuthStateChanged.
  cbn [Page.chat Page.user Page.no_component Page.mounted heap messages
       length Nat.ltb Nat.leb].
  unfold contents. cbn [omap list_omap]. by rewrite Hl.
Qed.

Lemma stale_fragment_rewrites_last_witness :
  ∃ pg pg',
    Page.run
      [ Page.SignedIn "u1" [];
        Page.Component (InputChange "hi");
        Page.Component Submit;
        Page.Component (StreamOpened 0);
        Page.Component (Chunk 0 (Some "Hel"));
        Page.SignedOut;
        Page.SignedIn "u2" [] ]
      Page.initial = Some pg ∧
    contents (heap (Page.chat pg)) (messages (Page.chat pg))
    = [initialWelcomeMessage] ∧
    Page.step (Page.Orphaned (Chunk 0 (Some "lo"))) pg = Some pg' ∧
    contents (heap (Page.chat pg')) (messages (Page.chat pg'))
    = [model_message "Hello"] ∧
    contents
      (heap (Page.chat (Page.onAuthStateChanged (Some "u3") []
                          (Page.onAuthStateChanged None [] pg'))))
      (messages (Page.chat (Page.onAuthStateChanged (Some "u3") []
                              (Page.onAuthStateChanged None [] pg'))))
    = [model_message "Hello"].
Proof.
  let reached :=
    eval vm_compute in
      (default Page.initial
         (Page.run
            [ Page.SignedIn "u1" [];
              Page.Component (InputChange "hi");
              Page.Component Submit;
              Page.Component (StreamOpened 0);
              Page.Component (Chunk 0 (Some "Hel"));
              Page.SignedOut;
              Page.SignedIn "u2" [] ]
            Page.initial)) in
  pose (pg := reached).
  destruct (stale_fragment_rewrites_last pg 0 _ "Hel" "lo" Page.greeting
              initialWelcomeMessage eq_refl eq_refl
              ltac:(discriminate) eq_refl eq_refl)
    as (pg' & Hstep & _ & Hms & _ & Hl & _ & _ & _ & Hin).
  exists pg, pg'. split; [vm_compute; reflexivity|].
  split; [reflexivity|].
  split; [exact Hstep|].
  split.
  - rewrite Hms. change (messages (Page.chat pg)) with [Page.greeting].
    unfold contents. cbn [omap list_omap]. by rewrite Hl.
  - exact (Hin eq_refl "u3").
Defined.

(** ** What holds of the page at all times *)





